(** * WindowExpression: the canonical text of a window function call

    A shallow embedding of
    [src/duckdb/src/include/duckdb/parser/expression/window_expression.hpp]:
    the [WindowBoundary] and [WindowExcludeMode] enumerations, the fields of
    [WindowExpression], and the templated [WindowExpression::ToString] that
    rebuilds the SQL text of a window call.  The properties proved below are
    about that function: which frame bounds are printed, which are left out,
    where DISTINCT and FILTER go, and when the function throws. *)

From Stdlib Require Import ZArith Lia Ascii.
From stdpp Require Import gmap strings list fin_maps.

Local Open Scope Z_scope.

(** ** Strings

    [std::string] is [string]; [a + b] and [a += b] are [a +:+ b]. *)

Definition empty (s : string) : bool :=
  match s with
  | EmptyString => true
  | String _ _ => false
  end.

(** ** Exceptions

    The only exception [ToString] can raise is [InternalException].  A
    computation that may throw returns [inl] of the exception or [inr] of its
    value. *)

Inductive Exception : Type :=
  | InternalException (msg : string).

Definition throws (A : Type) : Type := (Exception + A)%type.

Definition ret {A} (a : A) : throws A := inr a.
Definition throw {A} (e : Exception) : throws A := inl e.
Definition bind {A B} (m : throws A) (k : A → throws B) : throws B :=
  match m with
  | inl e => inl e
  | inr a => k a
  end.

Notation "x ←! m ; k" := (bind m (λ x, k))
  (at level 20, m at level 100, k at level 200, right associativity,
   format "x  ←!  m ;  '/' k").
Notation "' p ←! m ; k" := (bind m (λ p, k))
  (at level 20, p pattern, m at level 100, k at level 200,
   right associativity, format "' p  ←!  m ;  '/' k").

Definition returns {A} (m : throws A) : Prop := ∃ a, m = inr a.
Definition raises {A} (m : throws A) : Prop := ∃ msg, m = inl (InternalException msg).

(** ** The expression interface

    [BASE] and [ORDER_NODE] are template parameters of [ToString]; all the
    function asks of them is their own [ToString] method. *)

Class Renderable (A : Type) := ToString : A → string.

(** ** [unique_ptr]

    A [unique_ptr<T>] is either null or owns one [T]. *)

Definition unique_ptr (A : Type) : Type := option A.

(** Modelled from the spec: [operator->] of duckdb's [unique_ptr]
    (duckdb/common/unique_ptr.hpp, which is not among the sources).  The spec
    has rendering fail "with an internal-consistency error ... if an [Expr*]
    variant's required offset expression is absent"; the only thing the
    renderer does with such an offset is dereference it, so the dereference
    of a null pointer is what raises the internal error. *)
Definition deref {A} (p : unique_ptr A) : throws A :=
  match p with
  | Some a => ret a
  | None => throw (InternalException "Attempted to dereference unique_ptr that is NULL!")
  end.

(** ** [int]

    The DISTINCT counter is a C++ [int].  Incrementing it is written with the
    32-bit two's-complement wrap-around; the language leaves the overflow
    itself undefined, so statements about the counter say how many children
    keep it in range. *)

Definition INT_MAX : Z := 2 ^ 31 - 1.
Definition int_wrap (z : Z) : Z := (z + 2 ^ 31) mod 2 ^ 32 - 2 ^ 31.
Definition int_incr (z : Z) : Z := int_wrap (z + 1).

(** ** Enumerations *)

Inductive WindowBoundary : Type :=
  | INVALID
  | UNBOUNDED_PRECEDING
  | UNBOUNDED_FOLLOWING
  | CURRENT_ROW_RANGE
  | CURRENT_ROW_ROWS
  | EXPR_PRECEDING_ROWS
  | EXPR_FOLLOWING_ROWS
  | EXPR_PRECEDING_RANGE
  | EXPR_FOLLOWING_RANGE.

Inductive WindowExcludeMode : Type :=
  | NO_OTHER
  | CURRENT_ROW
  | GROUP
  | TIES.

Global Instance WindowBoundary_eq_dec : EqDecision WindowBoundary.
Proof. solve_decision. Defined.

Global Instance WindowExcludeMode_eq_dec : EqDecision WindowExcludeMode.
Proof. solve_decision. Defined.

(** The value each enumerator has in its [uint8_t]. *)
Definition WindowBoundary_value (b : WindowBoundary) : Z :=
  match b with
  | INVALID => 0
  | UNBOUNDED_PRECEDING => 1
  | UNBOUNDED_FOLLOWING => 2
  | CURRENT_ROW_RANGE => 3
  | CURRENT_ROW_ROWS => 4
  | EXPR_PRECEDING_ROWS => 5
  | EXPR_FOLLOWING_ROWS => 6
  | EXPR_PRECEDING_RANGE => 7
  | EXPR_FOLLOWING_RANGE => 8
  end.

Definition WindowExcludeMode_value (m : WindowExcludeMode) : Z :=
  match m with
  | NO_OTHER => 0
  | CURRENT_ROW => 1
  | GROUP => 2
  | TIES => 3
  end.

(** ** [StringUtil::Join] *)

Module StringUtil.

(** Modelled from the spec: [StringUtil::Join(input, count, separator, f)]
    (duckdb/common/string_util.hpp, which is not among the sources).  The
    spec has the renderer "join [arguments] with [", "]": the texts [f] gives
    for the first [count] elements, in order, with the separator between each
    two.  [f] is a C++ closure and may update what it has captured by
    reference, so it takes the captured state and returns it. *)
Fixpoint Join_rest {A S} (input : list A) (separator : string)
    (f : S → A → string * S) (st : S) (result : string) : string * S :=
  match input with
  | [] => (result, st)
  | x :: input =>
      let '(s, st) := f st x in
      Join_rest input separator f st (result +:+ (separator +:+ s))
  end.

Definition Join {A S} (input : list A) (count : nat) (separator : string)
    (f : S → A → string * S) (st : S) : string * S :=
  match take count input with
  | [] => ("", st)
  | x :: input =>
      let '(s, st) := f st x in
      Join_rest input separator f st s
  end.

End StringUtil.

(** A closure that captures nothing. *)
Definition stateless {A} (f : A → string) : unit → A → string * unit :=
  λ st x, (f x, st).

(** ** [WindowExpression] *)

Module WindowExpression.

(** The fields of the class.  [children], [partitions] and the expressions
    inside the order nodes are never null; the five [unique_ptr] fields may
    be. *)
Record t (BASE ORDER_NODE : Type) : Type := mk {
  catalog : string;
  schema : string;
  function_name : string;
  children : list BASE;
  partitions : list BASE;
  orders : list ORDER_NODE;
  filter_expr : unique_ptr BASE;
  ignore_nulls : bool;
  distinct : bool;
  start : WindowBoundary;
  end_ : WindowBoundary;
  exclude_clause : WindowExcludeMode;
  start_expr : unique_ptr BASE;
  end_expr : unique_ptr BASE;
  offset_expr : unique_ptr BASE;
  default_expr : unique_ptr BASE;
  arg_orders : list ORDER_NODE
}.

Global Arguments mk {_ _} _ _ _ _ _ _ _ _ _ _ _ _ _ _ _ _ _.
Global Arguments catalog {_ _} _.
Global Arguments schema {_ _} _.
Global Arguments function_name {_ _} _.
Global Arguments children {_ _} _.
Global Arguments partitions {_ _} _.
Global Arguments orders {_ _} _.
Global Arguments filter_expr {_ _} _.
Global Arguments ignore_nulls {_ _} _.
Global Arguments distinct {_ _} _.
Global Arguments start {_ _} _.
Global Arguments end_ {_ _} _.
Global Arguments exclude_clause {_ _} _.
Global Arguments start_expr {_ _} _.
Global Arguments end_expr {_ _} _.
Global Arguments offset_expr {_ _} _.
Global Arguments default_expr {_ _} _.
Global Arguments arg_orders {_ _} _.

Section to_string.
Context {BASE ORDER_NODE : Type}.
Context {base_ToString : Renderable BASE}.
Context {order_ToString : Renderable ORDER_NODE}.

Implicit Types (entry : t BASE ORDER_NODE) (result sep units from to : string).

(** [schema.empty() ? function_name : schema + "." + function_name] *)
Definition qualified_name (schema function_name : string) : string :=
  if empty schema then function_name else schema +:+ "." +:+ function_name.

(** The closure handed to [Join] for the children.  It captures the local
    [int distincts] by reference: [distincts++ ? "" : "DISTINCT "] reads the
    counter, then increments it. *)
Definition distinct_child (distincts : Z) (child : BASE) : string * Z :=
  ((if decide (distincts ≠ 0) then "" else "DISTINCT ") +:+ ToString child,
   int_incr distincts).

(** The children, when there are any. *)
Definition children_text entry : string :=
  if decide (length (children entry) ≠ 0%nat) then
    let distincts := if distinct entry then 0 else 1 in
    fst (StringUtil.Join (children entry) (length (children entry)) ", "
           distinct_child distincts)
  else "".

(** Lead/Lag extra arguments. *)
Definition lead_lag_text entry : string :=
  (match offset_expr entry with
   | Some e => ", " +:+ ToString e
   | None => ""
   end) +:+
  (match default_expr entry with
   | Some e => ", " +:+ ToString e
   | None => ""
   end).

(** ORDER BY arguments. *)
Definition arg_orders_text entry : string :=
  if decide (arg_orders entry ≠ []) then
    " ORDER BY " +:+
    fst (StringUtil.Join (arg_orders entry) (length (arg_orders entry)) ", "
           (stateless ToString) ())
  else "".

(** IGNORE NULLS *)
Definition ignore_nulls_text entry : string :=
  if ignore_nulls entry then " IGNORE NULLS" else "".

(** FILTER *)
Definition filter_text entry : string :=
  match filter_expr entry with
  | Some e => ") FILTER (WHERE " +:+ ToString e
  | None => ""
  end.

(** Partitions: the text, and the separator owed to the next clause. *)
Definition partitions_text entry sep : string * string :=
  if decide (partitions entry ≠ []) then
    ("PARTITION BY " +:+
     fst (StringUtil.Join (partitions entry) (length (partitions entry)) ", "
            (stateless ToString) ()),
     " ")
  else ("", sep).

(** Orders. *)
Definition orders_text entry sep : string * string :=
  if decide (orders entry ≠ []) then
    (sep +:+ "ORDER BY " +:+
     fst (StringUtil.Join (orders entry) (length (orders entry)) ", "
            (stateless ToString) ()),
     " ")
  else ("", sep).

(** [switch (entry.start)]: the [from] text and the units after it.  [from]
    starts out empty and [units] comes in as it was. *)
Definition from_switch entry units : throws (string * string) :=
  match start entry with
  | CURRENT_ROW_RANGE | CURRENT_ROW_ROWS =>
      ret ("CURRENT ROW",
           if decide (start entry = CURRENT_ROW_RANGE) then "RANGE" else "ROWS")
  | UNBOUNDED_PRECEDING =>
      ret (if decide (end_ entry ≠ CURRENT_ROW_RANGE)
           then "UNBOUNDED PRECEDING" else "",
           units)
  | EXPR_PRECEDING_ROWS | EXPR_PRECEDING_RANGE =>
      e ←! deref (start_expr entry);
      ret (ToString e +:+ " PRECEDING",
           if decide (start entry = EXPR_PRECEDING_RANGE) then "RANGE" else "ROWS")
  | EXPR_FOLLOWING_ROWS | EXPR_FOLLOWING_RANGE =>
      e ←! deref (start_expr entry);
      ret (ToString e +:+ " FOLLOWING",
           if decide (start entry = EXPR_FOLLOWING_RANGE) then "RANGE" else "ROWS")
  | _ => throw (InternalException "Unrecognized FROM in WindowExpression")
  end.

(** [switch (entry.end)]: the [to] text and the units after it. *)
Definition to_switch entry units : throws (string * string) :=
  match end_ entry with
  | CURRENT_ROW_RANGE =>
      ret (if decide (start entry ≠ UNBOUNDED_PRECEDING)
           then ("CURRENT ROW", "RANGE") else ("", units))
  | CURRENT_ROW_ROWS => ret ("CURRENT ROW", "ROWS")
  | UNBOUNDED_PRECEDING => ret ("UNBOUNDED PRECEDING", units)
  | UNBOUNDED_FOLLOWING => ret ("UNBOUNDED FOLLOWING", units)
  | EXPR_PRECEDING_ROWS | EXPR_PRECEDING_RANGE =>
      e ←! deref (end_expr entry);
      ret (ToString e +:+ " PRECEDING",
           if decide (end_ entry = EXPR_PRECEDING_RANGE) then "RANGE" else "ROWS")
  | EXPR_FOLLOWING_ROWS | EXPR_FOLLOWING_RANGE =>
      e ←! deref (end_expr entry);
      ret (ToString e +:+ " FOLLOWING",
           if decide (end_ entry = EXPR_FOLLOWING_RANGE) then "RANGE" else "ROWS")
  | _ => throw (InternalException "Unrecognized TO in WindowExpression")
  end.

(** "if we have an explicit EXCLUDE we always need to fill in from/to" *)
Definition exclude_fill entry from to units : string * string * string :=
  if decide (exclude_clause entry ≠ NO_OTHER) then
    let from := if empty from then "UNBOUNDED PRECEDING" else from in
    let '(to, units) := if empty to then ("CURRENT ROW", "RANGE") else (to, units) in
    (from, to, units)
  else (from, to, units).

(** The units and the bounds that are not empty. *)
Definition frame_text sep units from to : string :=
  (if negb (empty from) || negb (empty to) then sep +:+ units else "") +:+
  (if negb (empty from) && negb (empty to) then
     " BETWEEN " +:+ from +:+ " AND " +:+ to
   else if negb (empty from) then " " +:+ from
   else if negb (empty to) then " " +:+ to
   else "").

(** The EXCLUDE clause. *)
Definition exclude_text entry : string :=
  (if decide (exclude_clause entry ≠ NO_OTHER) then " EXCLUDE " else "") +:+
  match exclude_clause entry with
  | CURRENT_ROW => "CURRENT ROW"
  | GROUP => "GROUP"
  | TIES => "TIES"
  | _ => ""
  end.

(** *** Names for the parts of the text

    The definitions from here to [ToString] are not in the source: they name
    what the properties below talk about. *)

(** The four boundaries that carry an offset expression. *)
Definition is_expr (b : WindowBoundary) : bool :=
  match b with
  | EXPR_PRECEDING_ROWS | EXPR_FOLLOWING_ROWS
  | EXPR_PRECEDING_RANGE | EXPR_FOLLOWING_RANGE => true
  | _ => false
  end.

(** The units a boundary is named after. *)
Definition units_of (b : WindowBoundary) : string :=
  match b with
  | CURRENT_ROW_RANGE | EXPR_PRECEDING_RANGE | EXPR_FOLLOWING_RANGE => "RANGE"
  | _ => "ROWS"
  end.

(** Valid boundaries: a start the first switch knows, an end the second
    switch knows, and the offset expression of every [EXPR_*] boundary. *)
Definition valid_boundaries entry : Prop :=
  start entry ≠ INVALID ∧ start entry ≠ UNBOUNDED_FOLLOWING ∧
  end_ entry ≠ INVALID ∧
  (is_expr (start entry) → is_Some (start_expr entry)) ∧
  (is_expr (end_ entry) → is_Some (end_expr entry)).

(** [from], [to] and [units] as they stand after the EXCLUDE step. *)
Definition frame_bounds entry : throws (string * string * string) :=
  '(from, units) ←! from_switch entry "ROWS";
  '(to, units) ←! to_switch entry units;
  ret (exclude_fill entry from to units).

(** The start bound is elided when the [from] that reaches the printing
    step is empty, the end bound when [to] is. *)
Definition from_elided entry : Prop :=
  ∃ to units, frame_bounds entry = inr ("", to, units).
Definition to_elided entry : Prop :=
  ∃ from units, frame_bounds entry = inr (from, "", units).

(** The text up to the FILTER step, and up to the OVER clause. *)
Definition args_text entry (schema function_name : string) : string :=
  qualified_name schema function_name +:+ "(" +:+ children_text entry +:+
  lead_lag_text entry +:+ arg_orders_text entry +:+ ignore_nulls_text entry.
Definition call_text entry (schema function_name : string) : string :=
  args_text entry schema function_name +:+ filter_text entry.

(** PARTITION BY and ORDER BY, and the separator they leave owed. *)
Definition clauses_text entry : string :=
  fst (partitions_text entry "") +:+
  fst (orders_text entry (snd (partitions_text entry ""))).
Definition frame_sep entry : string :=
  snd (orders_text entry (snd (partitions_text entry ""))).

(** What stands between the parentheses of OVER for given bounds. *)
Definition over_text entry from to units : string :=
  clauses_text entry +:+ frame_text (frame_sep entry) units from to +:+
  exclude_text entry.

(** The children after the first, each behind its separator and with no
    prefix. *)
Definition later_children (l : list BASE) : string :=
  foldr (λ child acc, ", " +:+ ToString child +:+ acc) "" l.

(** Every expression node the entry owns. *)
Definition owned entry : list BASE :=
  children entry ++ partitions entry ++ option_list (filter_expr entry) ++
  option_list (start_expr entry) ++ option_list (end_expr entry) ++
  option_list (offset_expr entry) ++ option_list (default_expr entry).

(** [WindowExpression::ToString<T, BASE, ORDER_NODE>(entry, schema,
    function_name)].  [result] is the text built so far; each step appends
    to it, in the order of the source. *)
Definition ToString entry (schema function_name : string) : throws string :=
  (* Start with function call *)
  let result := qualified_name schema function_name in
  let result := result +:+ "(" in
  let result := result +:+ children_text entry in
  let result := result +:+ lead_lag_text entry in
  let result := result +:+ arg_orders_text entry in
  let result := result +:+ ignore_nulls_text entry in
  let result := result +:+ filter_text entry in
  (* Over clause *)
  let result := result +:+ ") OVER (" in
  let sep := "" in
  let '(text, sep) := partitions_text entry sep in
  let result := result +:+ text in
  let '(text, sep) := orders_text entry sep in
  let result := result +:+ text in
  (* Rows/Range *)
  let units := "ROWS" in
  '(from, units) ←! from_switch entry units;
  '(to, units) ←! to_switch entry units;
  let '(from, to, units) := exclude_fill entry from to units in
  let result := result +:+ frame_text sep units from to in
  let result := result +:+ exclude_text entry in
  let result := result +:+ ")" in
  ret result.

End to_string.

End WindowExpression.

(** ** Equality and copy

    [Equal] and [Copy] are declared in the header and defined elsewhere.
    To say what a copy shares with its original, the expression nodes live
    in a store and the entry holds their addresses. *)

(** Modelled from the spec: the sort-direction of the triples of the ORDER
    BY lists, "(expression, sort-direction, null-order)" ([OrderByNode] is
    declared in a header that is not among the sources). *)
Inductive OrderType : Type :=
  | ASCENDING
  | DESCENDING.

(** Modelled from the spec: the null-order of such a triple. *)
Inductive OrderByNullType : Type :=
  | NULLS_FIRST
  | NULLS_LAST.

(** Modelled from the spec: the triple itself, over the type [E] of its
    expression. *)
Record OrderByNode (E : Type) : Type := mkOrderByNode {
  type : OrderType;
  null_order : OrderByNullType;
  expression : E
}.

Global Arguments mkOrderByNode {_} _ _ _.
Global Arguments type {_} _.
Global Arguments null_order {_} _.
Global Arguments expression {_} _.

Global Instance OrderType_eq_dec : EqDecision OrderType.
Proof. solve_decision. Defined.

Global Instance OrderByNullType_eq_dec : EqDecision OrderByNullType.
Proof. solve_decision. Defined.

(** Modelled from the spec: what an expression node supplies besides its
    text, "[equal(node, node) -> bool], [clone(node) -> node]" (the
    expression classes are not among the sources). *)
Class NodeOps (Node : Type) := {
  node_equal : Node → Node → bool;
  node_clone : Node → Node
}.

Module Arena.

(** Addresses, and the store: the node at each live address.  A node is
    held with all that is below it. *)
Abbreviation loc := positive.
Abbreviation heap Node := (gmap loc Node).

(** An entry whose expressions are addresses into the store. *)
Abbreviation spec := (WindowExpression.t loc (OrderByNode loc)).

Section arena.
Context {Node : Type} {node_ops : NodeOps Node}.

Implicit Types (h : heap Node) (s : spec) (l : loc).

(** Every address the entry owns. *)
Definition handles s : list loc :=
  WindowExpression.children s ++ WindowExpression.partitions s ++
  (expression <$> WindowExpression.orders s) ++
  option_list (WindowExpression.filter_expr s) ++
  option_list (WindowExpression.start_expr s) ++
  option_list (WindowExpression.end_expr s) ++
  option_list (WindowExpression.offset_expr s) ++
  option_list (WindowExpression.default_expr s) ++
  (expression <$> WindowExpression.arg_orders s).

(** A well-formed entry owns live nodes only. *)
Definition well_formed h s : Prop := ∀ l, l ∈ handles s → l ∈ dom h.

(** A new node at an address that is not in use. *)
Definition alloc (n : Node) h : heap Node * loc :=
  let l := fresh (dom h) in (<[l := n]> h, l).

(** Modelled from the spec: the "fresh deep copy" of one owned node, the
    node's own clone at a new address.  A copy threads the store; it has no
    result when the address is not live. *)
Definition copy_node l h : option (heap Node * loc) :=
  n ← h !! l; Some (alloc (node_clone n) h).

(** Modelled from the spec: the copies of a sequence of nodes, in order. *)
Fixpoint copy_list (ls : list loc) h : option (heap Node * list loc) :=
  match ls with
  | [] => Some (h, [])
  | l :: ls =>
      '(h, l') ← copy_node l h;
      '(h, ls') ← copy_list ls h;
      Some (h, l' :: ls')
  end.

(** Modelled from the spec: the copy of an optional node. *)
Definition copy_ptr (p : unique_ptr loc) h
    : option (heap Node * unique_ptr loc) :=
  match p with
  | None => Some (h, None)
  | Some l => '(h, l') ← copy_node l h; Some (h, Some l')
  end.

(** Modelled from the spec: the copy of an ORDER BY triple, its direction
    and null-order by value. *)
Definition copy_order (o : OrderByNode loc) h
    : option (heap Node * OrderByNode loc) :=
  '(h, e) ← copy_node (expression o) h;
  Some (h, mkOrderByNode (type o) (null_order o) e).

(** Modelled from the spec: the copies of a sequence of triples. *)
Fixpoint copy_orders (os : list (OrderByNode loc)) h
    : option (heap Node * list (OrderByNode loc)) :=
  match os with
  | [] => Some (h, [])
  | o :: os =>
      '(h, o') ← copy_order o h;
      '(h, os') ← copy_orders os h;
      Some (h, o' :: os')
  end.

(** Modelled from the spec: [clone(spec)] "produces a new WindowSpec owning
    fresh deep copies of every owned expression-node (arguments,
    partition/order/argOrders expressions, bound offsets, filter,
    offset/default args); all enumerations and primitive flags are copied by
    value".  [WindowExpression::Copy] is declared in the header and defined
    in a file that is not among the sources. *)
Definition Copy s h : option (heap Node * spec) :=
  '(h, children) ← copy_list (WindowExpression.children s) h;
  '(h, partitions) ← copy_list (WindowExpression.partitions s) h;
  '(h, orders) ← copy_orders (WindowExpression.orders s) h;
  '(h, filter_expr) ← copy_ptr (WindowExpression.filter_expr s) h;
  '(h, start_expr) ← copy_ptr (WindowExpression.start_expr s) h;
  '(h, end_expr) ← copy_ptr (WindowExpression.end_expr s) h;
  '(h, offset_expr) ← copy_ptr (WindowExpression.offset_expr s) h;
  '(h, default_expr) ← copy_ptr (WindowExpression.default_expr s) h;
  '(h, arg_orders) ← copy_orders (WindowExpression.arg_orders s) h;
  Some (h,
        WindowExpression.mk (WindowExpression.catalog s)
          (WindowExpression.schema s) (WindowExpression.function_name s)
          children partitions orders filter_expr
          (WindowExpression.ignore_nulls s) (WindowExpression.distinct s)
          (WindowExpression.start s) (WindowExpression.end_ s)
          (WindowExpression.exclude_clause s)
          start_expr end_expr offset_expr default_expr arg_orders).

(** Modelled from the spec: two owned nodes "compared via their own
    structural-equality contract". *)
Definition equal_node h (a b : loc) : bool :=
  match h !! a, h !! b with
  | Some x, Some y => node_equal x y
  | _, _ => false
  end.

(** Modelled from the spec: "sequences compared element-wise in order". *)
Fixpoint equal_list h (xs ys : list loc) : bool :=
  match xs, ys with
  | [], [] => true
  | x :: xs, y :: ys => equal_node h x y && equal_list h xs ys
  | _, _ => false
  end.

(** Modelled from the spec: two optional nodes, both absent or both
    present and equal. *)
Definition equal_ptr h (p q : unique_ptr loc) : bool :=
  match p, q with
  | None, None => true
  | Some x, Some y => equal_node h x y
  | _, _ => false
  end.

(** Modelled from the spec: two ORDER BY triples, part by part. *)
Definition equal_order h (o1 o2 : OrderByNode loc) : bool :=
  bool_decide (type o1 = type o2) &&
  bool_decide (null_order o1 = null_order o2) &&
  equal_node h (expression o1) (expression o2).

(** Modelled from the spec: two sequences of triples, in order. *)
Fixpoint equal_orders h (xs ys : list (OrderByNode loc)) : bool :=
  match xs, ys with
  | [], [] => true
  | x :: xs, y :: ys => equal_order h x y && equal_orders h xs ys
  | _, _ => false
  end.

(** Modelled from the spec: [equal(a, b)] is "true iff every field listed
    in §3 compares equal, with sequences compared element-wise in order ...
    and owned sub-expressions compared via their own structural-equality
    contract"; the three names "compare byte-for-byte".
    [WindowExpression::Equal] is declared in the header and defined in a
    file that is not among the sources. *)
Definition Equal h (a b : spec) : bool :=
  bool_decide (WindowExpression.catalog a = WindowExpression.catalog b) &&
  bool_decide (WindowExpression.schema a = WindowExpression.schema b) &&
  bool_decide (WindowExpression.function_name a =
               WindowExpression.function_name b) &&
  equal_list h (WindowExpression.children a) (WindowExpression.children b) &&
  bool_decide (WindowExpression.distinct a = WindowExpression.distinct b) &&
  bool_decide (WindowExpression.ignore_nulls a =
               WindowExpression.ignore_nulls b) &&
  equal_ptr h (WindowExpression.filter_expr a) (WindowExpression.filter_expr b) &&
  equal_list h (WindowExpression.partitions a) (WindowExpression.partitions b) &&
  equal_orders h (WindowExpression.orders a) (WindowExpression.orders b) &&
  equal_orders h (WindowExpression.arg_orders a)
    (WindowExpression.arg_orders b) &&
  bool_decide (WindowExpression.start a = WindowExpression.start b) &&
  bool_decide (WindowExpression.end_ a = WindowExpression.end_ b) &&
  equal_ptr h (WindowExpression.start_expr a) (WindowExpression.start_expr b) &&
  equal_ptr h (WindowExpression.end_expr a) (WindowExpression.end_expr b) &&
  equal_ptr h (WindowExpression.offset_expr a) (WindowExpression.offset_expr b) &&
  equal_ptr h (WindowExpression.default_expr a)
    (WindowExpression.default_expr b) &&
  bool_decide (WindowExpression.exclude_clause a =
               WindowExpression.exclude_clause b).

(** *** Names for what a copy is

    [h'] has at [l'] a copy of the node [h0] has at [l]. *)
Definition is_copy (h0 h' : heap Node) (l l' : loc) : Prop :=
  ∃ n, h0 !! l = Some n ∧ h' !! l' = Some (node_clone n).

(** [h'] is [h] and the addresses [news], each of them new and no two the
    same. *)
Definition allocated (h h' : heap Node) (news : list loc) : Prop :=
  NoDup news ∧ (∀ l, l ∈ news → l ∉ dom h) ∧
  dom h' = dom h ∪ list_to_set news.

(** The same for an optional node and for a triple. *)
Definition is_copy_ptr (h0 h' : heap Node) (p p' : unique_ptr loc) : Prop :=
  match p, p' with
  | None, None => True
  | Some l, Some l' => is_copy h0 h' l l'
  | _, _ => False
  end.

Definition is_copy_order (h0 h' : heap Node) (o o' : OrderByNode loc) : Prop :=
  type o' = type o ∧ null_order o' = null_order o ∧
  is_copy h0 h' (expression o) (expression o').

(** [s'] is a copy of [s]: the flags, names and enumerations are the same
    and every node is a copy of the node in the same place. *)
Definition copy_of (h0 h' : heap Node) (s s' : spec) : Prop :=
  WindowExpression.catalog s' = WindowExpression.catalog s ∧
  WindowExpression.schema s' = WindowExpression.schema s ∧
  WindowExpression.function_name s' = WindowExpression.function_name s ∧
  WindowExpression.ignore_nulls s' = WindowExpression.ignore_nulls s ∧
  WindowExpression.distinct s' = WindowExpression.distinct s ∧
  WindowExpression.start s' = WindowExpression.start s ∧
  WindowExpression.end_ s' = WindowExpression.end_ s ∧
  WindowExpression.exclude_clause s' = WindowExpression.exclude_clause s ∧
  Forall2 (is_copy h0 h') (WindowExpression.children s)
    (WindowExpression.children s') ∧
  Forall2 (is_copy h0 h') (WindowExpression.partitions s)
    (WindowExpression.partitions s') ∧
  Forall2 (is_copy_order h0 h') (WindowExpression.orders s)
    (WindowExpression.orders s') ∧
  is_copy_ptr h0 h' (WindowExpression.filter_expr s)
    (WindowExpression.filter_expr s') ∧
  is_copy_ptr h0 h' (WindowExpression.start_expr s)
    (WindowExpression.start_expr s') ∧
  is_copy_ptr h0 h' (WindowExpression.end_expr s)
    (WindowExpression.end_expr s') ∧
  is_copy_ptr h0 h' (WindowExpression.offset_expr s)
    (WindowExpression.offset_expr s') ∧
  is_copy_ptr h0 h' (WindowExpression.default_expr s)
    (WindowExpression.default_expr s') ∧
  Forall2 (is_copy_order h0 h') (WindowExpression.arg_orders s)
    (WindowExpression.arg_orders s').

End arena.

End Arena.

(** ** More names for the properties

    None of this is in the source: entries that differ from a given one in
    one field, the kind of a boundary without its units, and the depth of
    the parentheses of a text. *)

(** The entry with another start. *)
Definition with_start {BASE ORDER_NODE : Type}
    (entry : WindowExpression.t BASE ORDER_NODE) (b : WindowBoundary)
    : WindowExpression.t BASE ORDER_NODE :=
  WindowExpression.mk (WindowExpression.catalog entry)
    (WindowExpression.schema entry) (WindowExpression.function_name entry)
    (WindowExpression.children entry) (WindowExpression.partitions entry)
    (WindowExpression.orders entry) (WindowExpression.filter_expr entry)
    (WindowExpression.ignore_nulls entry) (WindowExpression.distinct entry)
    b (WindowExpression.end_ entry) (WindowExpression.exclude_clause entry)
    (WindowExpression.start_expr entry) (WindowExpression.end_expr entry)
    (WindowExpression.offset_expr entry) (WindowExpression.default_expr entry)
    (WindowExpression.arg_orders entry).

(** The entry with other Lead/Lag arguments. *)
Definition with_lead_lag {BASE ORDER_NODE : Type}
    (entry : WindowExpression.t BASE ORDER_NODE)
    (offset_expr default_expr : unique_ptr BASE)
    : WindowExpression.t BASE ORDER_NODE :=
  WindowExpression.mk (WindowExpression.catalog entry)
    (WindowExpression.schema entry) (WindowExpression.function_name entry)
    (WindowExpression.children entry) (WindowExpression.partitions entry)
    (WindowExpression.orders entry) (WindowExpression.filter_expr entry)
    (WindowExpression.ignore_nulls entry) (WindowExpression.distinct entry)
    (WindowExpression.start entry) (WindowExpression.end_ entry)
    (WindowExpression.exclude_clause entry)
    (WindowExpression.start_expr entry) (WindowExpression.end_expr entry)
    offset_expr default_expr (WindowExpression.arg_orders entry).

(** A boundary without its units: each [_RANGE] boundary becomes the
    [_ROWS] boundary of the same name. *)
Definition strip_units (b : WindowBoundary) : WindowBoundary :=
  match b with
  | CURRENT_ROW_RANGE => CURRENT_ROW_ROWS
  | EXPR_PRECEDING_RANGE => EXPR_PRECEDING_ROWS
  | EXPR_FOLLOWING_RANGE => EXPR_FOLLOWING_ROWS
  | _ => b
  end.

(** The depth of open parentheses after reading [s] from depth [d]; none
    when a parenthesis closes that was never opened. *)
Fixpoint depth (d : nat) (s : string) : option nat :=
  match s with
  | EmptyString => Some d
  | String c s =>
      if Ascii.eqb c "("%char then depth (S d) s
      else if Ascii.eqb c ")"%char then
        match d with
        | O => None
        | S d => depth d s
        end
      else depth d s
  end.

(** A text whose parentheses match. *)
Definition balanced (s : string) : Prop := depth 0 s = Some 0%nat.

(** A text that takes depth [a] to depth [b], under any number of
    parentheses already open. *)
Definition shifts (s : string) (a b : nat) : Prop :=
  ∀ d : nat, depth (a + d) s = Some (b + d)%nat.

(** ** Concrete inputs

    Expression nodes that are their own text, and a few entries over them. *)

#[export] Instance text_ToString : Renderable string := λ s, s.

(** [func()] with the default frame and no EXCLUDE. *)
Definition default_frame : WindowExpression.t string string :=
  WindowExpression.mk "" "" "func" [] [] [] None false false
    UNBOUNDED_PRECEDING CURRENT_ROW_RANGE NO_OTHER None None None None [].

(** The same with EXCLUDE TIES. *)
Definition default_frame_ties : WindowExpression.t string string :=
  WindowExpression.mk "" "" "func" [] [] [] None false false
    UNBOUNDED_PRECEDING CURRENT_ROW_RANGE TIES None None None None [].

(** [1 PRECEDING] (a RANGE bound) up to the current row (a ROWS bound). *)
Definition mixed_units : WindowExpression.t string string :=
  WindowExpression.mk "" "" "func" ["x"] ["p"] ["s DESC"] None false false
    EXPR_PRECEDING_RANGE CURRENT_ROW_ROWS NO_OTHER (Some "1") None None None [].

(** An [EXPR_*] end whose offset is missing. *)
Definition missing_offset : WindowExpression.t string string :=
  WindowExpression.mk "" "" "func" ["x"] [] [] None false false
    CURRENT_ROW_ROWS EXPR_FOLLOWING_ROWS NO_OTHER None None None None [].

(** A start the first switch does not know. *)
Definition invalid_start : WindowExpression.t string string :=
  WindowExpression.mk "" "" "func" ["x"] [] [] None false false
    INVALID CURRENT_ROW_ROWS NO_OTHER None None None None [].

(** [func(a, b)] with DISTINCT. *)
Definition distinct_pair : WindowExpression.t string string :=
  WindowExpression.mk "" "" "func" ["a"; "b"] [] [] None false true
    UNBOUNDED_PRECEDING CURRENT_ROW_RANGE NO_OTHER None None None None [].

(** [func(x)] with a filter. *)
Definition filtered : WindowExpression.t string string :=
  WindowExpression.mk "" "" "func" ["x"] [] [] (Some "p") false false
    UNBOUNDED_PRECEDING CURRENT_ROW_RANGE NO_OTHER None None None None [].

(** A second rendering of text nodes, which agrees with the first on the
    nodes of [mixed_units] and on nothing else. *)
Definition second_ToString : Renderable string :=
  λ s, if bool_decide (s ∈ ["x"; "p"; "1"; "s DESC"]) then s else "?".

(** Nodes that are their own text, compared letter by letter and copied
    as they are; a store with three of them and an entry that owns them. *)
#[export] Instance text_NodeOps : NodeOps string :=
  {| node_equal := String.eqb; node_clone := λ n, n |}.

Definition small_heap : Arena.heap string :=
  <[1%positive := "x"]> (<[2%positive := "p"]> (<[3%positive := "s"]> ∅)).

Definition small_spec : Arena.spec :=
  WindowExpression.mk "" "" "func" [1%positive] [2%positive]
    [mkOrderByNode DESCENDING NULLS_LAST 3%positive] None false false
    UNBOUNDED_PRECEDING CURRENT_ROW_RANGE NO_OTHER None None None None [].

(** A start and an end neither switch knows. *)
Definition invalid_both : WindowExpression.t string string :=
  WindowExpression.mk "" "" "func" ["x"] [] [] None false false
    UNBOUNDED_FOLLOWING INVALID NO_OTHER None None None None [].

(** [main.lag(x, 1, 0 ORDER BY o) FILTER (WHERE (p))] over a window with
    every clause. *)
Definition full_call : WindowExpression.t string string :=
  WindowExpression.mk "" "main" "lag" ["x"; "f(y)"] ["p"; "q"] ["s DESC"; "t"]
    (Some "(p)") true false
    EXPR_PRECEDING_ROWS EXPR_FOLLOWING_RANGE GROUP (Some "1") (Some "(2)")
    (Some "1") (Some "0") ["o"].

(** [lag] with an offset and a default and no child. *)
Definition no_child : WindowExpression.t string string :=
  WindowExpression.mk "" "" "lag" [] [] [] None false true
    UNBOUNDED_PRECEDING CURRENT_ROW_RANGE NO_OTHER None None
    (Some "1") (Some "0") [].

(** * Properties *)

(** ** Strings *)

Lemma append_nil_r (s : string) : s +:+ "" = s.
Proof.
  induction s as [|c s IH]; [done|].
  change (String c (s +:+ "") = String c s). by rewrite IH.
Qed.

Lemma append_assoc (s1 s2 s3 : string) : (s1 +:+ s2) +:+ s3 = s1 +:+ s2 +:+ s3.
Proof.
  induction s1 as [|c s1 IH]; [done|].
  change (String c ((s1 +:+ s2) +:+ s3) = String c (s1 +:+ s2 +:+ s3)).
  by rewrite IH.
Qed.

(** Appends nested to the right, with no empty text at the end. *)
Ltac normalize_append :=
  repeat (rewrite append_assoc || rewrite append_nil_r).

Lemma empty_true (s : string) : empty s = true ↔ s = "".
Proof. by destruct s. Qed.

Lemma empty_false (s : string) : empty s = false ↔ s ≠ "".
Proof. by destruct s. Qed.

Lemma append_not_empty (s1 s2 : string) : s2 ≠ "" → s1 +:+ s2 ≠ "".
Proof. by destruct s1. Qed.

(** ** The error monad *)

Lemma raises_or_returns {A} (m : throws A) : raises m ∨ returns m.
Proof. destruct m as [[msg]|a]; [left|right]; by eexists. Qed.

Lemma raises_not_returns {A} (m : throws A) : raises m → ¬ returns m.
Proof. by intros [msg ->] [a ?]. Qed.

(** ** The frame bounds *)

Section frame.
Context {BASE ORDER_NODE : Type}.
Context {base_ToString : Renderable BASE}.
Context {order_ToString : Renderable ORDER_NODE}.

Implicit Types (entry : WindowExpression.t BASE ORDER_NODE).
Implicit Types (result sep units from to : string).

(** [ToString] is the frame bounds, when the two switches give them, set
    between the call and the closing parenthesis. *)
Lemma ToString_frame entry (schema function_name : string) :
  WindowExpression.ToString entry schema function_name =
  '(from, to, units) ←! WindowExpression.frame_bounds entry;
  ret (WindowExpression.call_text entry schema function_name +:+ ") OVER (" +:+
       WindowExpression.over_text entry from to units +:+ ")").
Proof.
  unfold WindowExpression.ToString, WindowExpression.frame_bounds,
    WindowExpression.call_text, WindowExpression.args_text,
    WindowExpression.over_text, WindowExpression.clauses_text,
    WindowExpression.frame_sep.
  destruct (WindowExpression.partitions_text entry "") as [ptext sep1]; simpl.
  destruct (WindowExpression.orders_text entry sep1) as [otext sep2]; simpl.
  destruct (WindowExpression.from_switch entry "ROWS") as [e|[from units]];
    simpl; [done|].
  destruct (WindowExpression.to_switch entry units) as [e|[to units']];
    simpl; [done|].
  destruct (WindowExpression.exclude_fill entry from to units')
    as [[from' to'] units''].
  unfold ret. f_equal. by rewrite !append_assoc.
Qed.

(** The first switch: it throws on a start it does not know and on a null
    offset, and otherwise leaves [from] empty in one case only. *)
Lemma from_switch_raises entry units :
  WindowExpression.start entry = INVALID ∨
  WindowExpression.start entry = UNBOUNDED_FOLLOWING ∨
  (WindowExpression.is_expr (WindowExpression.start entry) ∧
   WindowExpression.start_expr entry = None) →
  raises (WindowExpression.from_switch entry units).
Proof.
  unfold WindowExpression.from_switch.
  intros [H|[H|[H1 H2]]].
  - rewrite H. by eexists.
  - rewrite H. by eexists.
  - rewrite H2. destruct (WindowExpression.start entry); try done; by eexists.
Qed.

(** A bound with a text is not elided. *)
Local Ltac not_elided :=
  let H := fresh in
  split;
  [ first [done | intros H; by apply append_not_empty in H]
  | by intros [? ?] ].

Lemma from_switch_returns entry units :
  WindowExpression.start entry ≠ INVALID →
  WindowExpression.start entry ≠ UNBOUNDED_FOLLOWING →
  (WindowExpression.is_expr (WindowExpression.start entry) →
   is_Some (WindowExpression.start_expr entry)) →
  ∃ from units',
    WindowExpression.from_switch entry units = inr (from, units') ∧
    (from = "" ↔
     WindowExpression.start entry = UNBOUNDED_PRECEDING ∧
     WindowExpression.end_ entry = CURRENT_ROW_RANGE) ∧
    (units' = if decide (WindowExpression.start entry = UNBOUNDED_PRECEDING)
              then units
              else WindowExpression.units_of (WindowExpression.start entry)).
Proof.
  unfold WindowExpression.from_switch. intros H1 H2 H3.
  destruct (WindowExpression.start entry) eqn:Hs; try done; simpl in *;
    try (destruct H3 as [e ->]; [done|]; simpl).
  2-7: eexists _, _; (split; [done|]); (split; [|done]); not_elided.
  case_decide as He; eexists _, _; (split; [done|]); (split; [|done]).
  - not_elided.
  - split; [intros _|done]. split; [done|].
    by destruct (decide (WindowExpression.end_ entry = CURRENT_ROW_RANGE)).
Qed.

(** The second switch. *)
Lemma to_switch_raises entry units :
  WindowExpression.end_ entry = INVALID ∨
  (WindowExpression.is_expr (WindowExpression.end_ entry) ∧
   WindowExpression.end_expr entry = None) →
  raises (WindowExpression.to_switch entry units).
Proof.
  unfold WindowExpression.to_switch.
  intros [H|[H1 H2]].
  - rewrite H. by eexists.
  - rewrite H2. destruct (WindowExpression.end_ entry); try done; by eexists.
Qed.

Lemma to_switch_returns entry units :
  WindowExpression.end_ entry ≠ INVALID →
  (WindowExpression.is_expr (WindowExpression.end_ entry) →
   is_Some (WindowExpression.end_expr entry)) →
  ∃ to units',
    WindowExpression.to_switch entry units = inr (to, units') ∧
    (to = "" ↔
     WindowExpression.end_ entry = CURRENT_ROW_RANGE ∧
     WindowExpression.start entry = UNBOUNDED_PRECEDING) ∧
    (WindowExpression.end_ entry = CURRENT_ROW_ROWS ∨
     WindowExpression.is_expr (WindowExpression.end_ entry) →
     units' = WindowExpression.units_of (WindowExpression.end_ entry)) ∧
    (WindowExpression.end_ entry = UNBOUNDED_PRECEDING ∨
     WindowExpression.end_ entry = UNBOUNDED_FOLLOWING →
     units' = units).
Proof.
  unfold WindowExpression.to_switch. intros H1 H2.
  destruct (WindowExpression.end_ entry) eqn:He; try done; simpl in *;
    try (destruct H2 as [e ->]; [done|]; simpl).
  1-2, 4-8:
    eexists _, _; (split; [done|]);
    (split; [not_elided|]); split; first [done | by intros [|]].
  case_decide as Hs; eexists _, _; (split; [done|]);
    (split; [|split; by intros [|]]).
  - not_elided.
  - split; [intros _|done]. split; [done|].
    by destruct (decide (WindowExpression.start entry = UNBOUNDED_PRECEDING)).
Qed.

(** The EXCLUDE step, by cases on the mode. *)
Lemma exclude_fill_no_other entry from to units :
  WindowExpression.exclude_clause entry = NO_OTHER →
  WindowExpression.exclude_fill entry from to units = (from, to, units).
Proof. unfold WindowExpression.exclude_fill. intros ->. by case_decide. Qed.

Lemma exclude_fill_other entry from to units :
  WindowExpression.exclude_clause entry ≠ NO_OTHER →
  WindowExpression.exclude_fill entry from to units =
  (if empty from then "UNBOUNDED PRECEDING" else from,
   if empty to then "CURRENT ROW" else to,
   if empty to then "RANGE" else units).
Proof.
  unfold WindowExpression.exclude_fill. intros H.
  case_decide; [|done]. by destruct (empty to).
Qed.

(** With valid boundaries both switches return. *)
Lemma frame_bounds_switches entry :
  WindowExpression.valid_boundaries entry →
  ∃ from units0 to units1,
    WindowExpression.from_switch entry "ROWS" = inr (from, units0) ∧
    WindowExpression.to_switch entry units0 = inr (to, units1) ∧
    WindowExpression.frame_bounds entry =
      inr (WindowExpression.exclude_fill entry from to units1) ∧
    (from = "" ↔
     WindowExpression.start entry = UNBOUNDED_PRECEDING ∧
     WindowExpression.end_ entry = CURRENT_ROW_RANGE) ∧
    (to = "" ↔
     WindowExpression.end_ entry = CURRENT_ROW_RANGE ∧
     WindowExpression.start entry = UNBOUNDED_PRECEDING) ∧
    (WindowExpression.end_ entry = CURRENT_ROW_ROWS ∨
     WindowExpression.is_expr (WindowExpression.end_ entry) →
     units1 = WindowExpression.units_of (WindowExpression.end_ entry)) ∧
    (WindowExpression.end_ entry = UNBOUNDED_PRECEDING ∨
     WindowExpression.end_ entry = UNBOUNDED_FOLLOWING →
     units1 = if decide (WindowExpression.start entry = UNBOUNDED_PRECEDING)
              then "ROWS"
              else WindowExpression.units_of (WindowExpression.start entry)).
Proof.
  intros (H1 & H2 & H3 & H4 & H5).
  destruct (from_switch_returns entry "ROWS" H1 H2 H4)
    as (from & units0 & Hfrom & Hf & Hu0).
  destruct (to_switch_returns entry units0 H3 H5)
    as (to & units1 & Hto & Ht & Hu & Hu').
  exists from, units0, to, units1.
  unfold WindowExpression.frame_bounds. rewrite Hfrom. simpl.
  rewrite Hto. simpl. do 6 (split; [done|]).
  intros He. by rewrite (Hu' He).
Qed.

Lemma valid_boundaries_returns entry (schema function_name : string) :
  WindowExpression.valid_boundaries entry →
  returns (WindowExpression.ToString entry schema function_name).
Proof.
  intros Hv.
  destruct (frame_bounds_switches entry Hv) as (f & u0 & t & u1 & _ & _ & Hb & _).
  rewrite ToString_frame, Hb. simpl.
  destruct (WindowExpression.exclude_fill entry f t u1) as [[f' t'] u'].
  by eexists.
Qed.

(** The printing step prints nothing or the whole frame when [from] and [to]
    are empty together. *)
Lemma frame_text_both sep units from to :
  from ≠ "" → to ≠ "" →
  WindowExpression.frame_text sep units from to =
  sep +:+ units +:+ " BETWEEN " +:+ from +:+ " AND " +:+ to.
Proof.
  intros Hf%empty_false Ht%empty_false. unfold WindowExpression.frame_text.
  rewrite Hf, Ht. simpl. by rewrite append_assoc.
Qed.

Lemma frame_text_none sep units :
  WindowExpression.frame_text sep units "" "" = "".
Proof. done. Qed.

Lemma clauses_text_nil entry :
  WindowExpression.partitions entry = [] →
  WindowExpression.orders entry = [] →
  WindowExpression.clauses_text entry = "" ∧
  WindowExpression.frame_sep entry = "".
Proof.
  unfold WindowExpression.clauses_text, WindowExpression.frame_sep,
    WindowExpression.partitions_text, WindowExpression.orders_text.
  intros -> ->. by repeat case_decide.
Qed.

Lemma exclude_text_no_other entry :
  WindowExpression.exclude_clause entry = NO_OTHER →
  WindowExpression.exclude_text entry = "".
Proof. unfold WindowExpression.exclude_text. intros ->. by case_decide. Qed.

(** The bounds that reach the printing step. *)
Lemma frame_bounds_valid entry :
  WindowExpression.valid_boundaries entry →
  ∃ from to units,
    WindowExpression.frame_bounds entry = inr (from, to, units) ∧
    (from = "" ↔
     WindowExpression.start entry = UNBOUNDED_PRECEDING ∧
     WindowExpression.end_ entry = CURRENT_ROW_RANGE ∧
     WindowExpression.exclude_clause entry = NO_OTHER) ∧
    (to = "" ↔
     WindowExpression.end_ entry = CURRENT_ROW_RANGE ∧
     WindowExpression.start entry = UNBOUNDED_PRECEDING ∧
     WindowExpression.exclude_clause entry = NO_OTHER) ∧
    (WindowExpression.end_ entry = CURRENT_ROW_ROWS ∨
     WindowExpression.is_expr (WindowExpression.end_ entry) →
     units = WindowExpression.units_of (WindowExpression.end_ entry)) ∧
    (WindowExpression.end_ entry = UNBOUNDED_PRECEDING ∨
     WindowExpression.end_ entry = UNBOUNDED_FOLLOWING →
     units = if decide (WindowExpression.start entry = UNBOUNDED_PRECEDING)
             then "ROWS"
             else WindowExpression.units_of (WindowExpression.start entry)).
Proof.
  intros Hv.
  destruct (frame_bounds_switches entry Hv)
    as (f & u0 & t & u1 & _ & _ & Hb & Hf & Ht & Hu & Hu').
  destruct (decide (WindowExpression.exclude_clause entry = NO_OTHER)) as [Hx|Hx].
  - rewrite exclude_fill_no_other in Hb by done.
    exists f, t, u1. split; [done|]. rewrite Hf, Ht. tauto.
  - rewrite exclude_fill_other in Hb by done.
    eexists _, _, _. split; [exact Hb|]. split; [|split; [|split]].
    + split; [|by intros (_ & _ & ?)].
      by destruct (empty f) eqn:E; [|apply empty_false in E].
    + split; [|by intros (_ & _ & ?)].
      by destruct (empty t) eqn:E; [|apply empty_false in E].
    + intros He. destruct (empty t) eqn:E; [|by apply Hu].
      apply empty_true, Ht in E as [E _]. rewrite E in He. by destruct He.
    + intros He. destruct (empty t) eqn:E; [|by apply Hu'].
      apply empty_true, Ht in E as [E _]. rewrite E in He. by destruct He.
Qed.

(** C1, as amended.  With valid boundaries, the start bound is elided
    exactly when the start is UNBOUNDED_PRECEDING, the end is
    CURRENT_ROW_RANGE and there is no EXCLUDE clause, and the end bound is
    elided under exactly the same condition.  The two switches alone leave
    [from], and [to], empty exactly when the start is UNBOUNDED_PRECEDING and
    the end is CURRENT_ROW_RANGE.  In particular an entry with that start and
    end and no EXCLUDE prints no frame at all, and with no PARTITION BY and
    no ORDER BY either its OVER clause is empty. *)
Theorem elision_exactly_default_frame entry (schema function_name : string) :
  WindowExpression.valid_boundaries entry →
  (WindowExpression.from_elided entry ↔
   WindowExpression.start entry = UNBOUNDED_PRECEDING ∧
   WindowExpression.end_ entry = CURRENT_ROW_RANGE ∧
   WindowExpression.exclude_clause entry = NO_OTHER) ∧
  (WindowExpression.to_elided entry ↔
   WindowExpression.end_ entry = CURRENT_ROW_RANGE ∧
   WindowExpression.start entry = UNBOUNDED_PRECEDING ∧
   WindowExpression.exclude_clause entry = NO_OTHER) ∧
  (∃ from units0 to units1,
     WindowExpression.from_switch entry "ROWS" = inr (from, units0) ∧
     WindowExpression.to_switch entry units0 = inr (to, units1) ∧
     (from = "" ↔
      WindowExpression.start entry = UNBOUNDED_PRECEDING ∧
      WindowExpression.end_ entry = CURRENT_ROW_RANGE) ∧
     (to = "" ↔
      WindowExpression.end_ entry = CURRENT_ROW_RANGE ∧
      WindowExpression.start entry = UNBOUNDED_PRECEDING)) ∧
  (WindowExpression.start entry = UNBOUNDED_PRECEDING →
   WindowExpression.end_ entry = CURRENT_ROW_RANGE →
   WindowExpression.exclude_clause entry = NO_OTHER →
   WindowExpression.ToString entry schema function_name =
     inr (WindowExpression.call_text entry schema function_name +:+
          ") OVER (" +:+ WindowExpression.clauses_text entry +:+ ")") ∧
   (WindowExpression.partitions entry = [] →
    WindowExpression.orders entry = [] →
    WindowExpression.ToString entry schema function_name =
      inr (WindowExpression.call_text entry schema function_name +:+
           ") OVER ()"))).
Proof.
  intros Hv.
  destruct (frame_bounds_valid entry Hv) as (f & t & u & Hb & Hf & Ht & _).
  split; [|split; [|split]].
  - rewrite <- Hf. unfold WindowExpression.from_elided. rewrite Hb. split.
    + by intros (? & ? & [= -> _ _]).
    + intros ->. by eexists _, _.
  - rewrite <- Ht. unfold WindowExpression.to_elided. rewrite Hb. split.
    + by intros (? & ? & [= _ -> _]).
    + intros ->. by eexists _, _.
  - destruct (frame_bounds_switches entry Hv)
      as (f0 & u0 & t0 & u1 & H1 & H2 & _ & H3 & H4 & _).
    by exists f0, u0, t0, u1.
  - intros Hs He Hx.
    assert (f = "") as -> by by apply Hf.
    assert (t = "") as -> by by apply Ht.
    assert (WindowExpression.ToString entry schema function_name =
      inr (WindowExpression.call_text entry schema function_name +:+
           ") OVER (" +:+ WindowExpression.clauses_text entry +:+ ")")) as Hr.
    { rewrite ToString_frame, Hb. simpl. unfold WindowExpression.over_text.
      rewrite frame_text_none, exclude_text_no_other by done.
      by rewrite !append_nil_r. }
    split; [done|]. intros Hp Ho. rewrite Hr.
    by destruct (clauses_text_nil entry Hp Ho) as [-> _].
Qed.

End frame.

Lemma elision_exactly_default_frame_witness :
  WindowExpression.valid_boundaries default_frame ∧
  WindowExpression.from_elided default_frame ∧
  WindowExpression.to_elided default_frame ∧
  WindowExpression.ToString default_frame "" "func" = inr "func() OVER ()".
Proof.
  assert (WindowExpression.valid_boundaries default_frame) as Hv.
  { by repeat split. }
  destruct (elision_exactly_default_frame default_frame "" "func" Hv)
    as (Hf & Ht & _ & Hr).
  split; [done|]. split; [by apply Hf|]. split; [by apply Ht|].
  destruct Hr as [_ Hr]; [done..|]. by apply Hr.
Defined.

(** C1, as it is stated, fails when there is an EXCLUDE clause: the start is
    UNBOUNDED_PRECEDING and the end CURRENT_ROW_RANGE, and both bounds are
    printed. *)
Lemma elision_counterexample :
  WindowExpression.valid_boundaries default_frame_ties ∧
  ¬ (WindowExpression.from_elided default_frame_ties ↔
     WindowExpression.start default_frame_ties = UNBOUNDED_PRECEDING ∧
     WindowExpression.end_ default_frame_ties = CURRENT_ROW_RANGE) ∧
  ¬ (WindowExpression.to_elided default_frame_ties ↔
     WindowExpression.end_ default_frame_ties = CURRENT_ROW_RANGE ∧
     WindowExpression.start default_frame_ties = UNBOUNDED_PRECEDING) ∧
  WindowExpression.ToString default_frame_ties "" "func" =
    inr "func() OVER (RANGE BETWEEN UNBOUNDED PRECEDING AND CURRENT ROW EXCLUDE TIES)".
Proof.
  split; [by repeat split|]. split; [|split; [|done]].
  - intros [_ H]. destruct H as (to & units & H); [done|]. by vm_compute in H.
  - intros [_ H]. destruct H as (from & units & H); [done|]. by vm_compute in H.
Qed.

(** ** What is printed between the parentheses of OVER *)

Section over.
Context {BASE ORDER_NODE : Type}.
Context {base_ToString : Renderable BASE}.
Context {order_ToString : Renderable ORDER_NODE}.

Implicit Types (entry : WindowExpression.t BASE ORDER_NODE).
Implicit Types (result sep units from to : string).

Lemma ToString_both entry (schema function_name : string) from to units :
  WindowExpression.frame_bounds entry = inr (from, to, units) →
  from ≠ "" → to ≠ "" →
  WindowExpression.ToString entry schema function_name =
    inr (WindowExpression.call_text entry schema function_name +:+
         ") OVER (" +:+ WindowExpression.clauses_text entry +:+
         WindowExpression.frame_sep entry +:+ units +:+
         " BETWEEN " +:+ from +:+ " AND " +:+ to +:+
         WindowExpression.exclude_text entry +:+ ")").
Proof.
  intros Hb Hf Ht. rewrite ToString_frame, Hb. simpl.
  unfold WindowExpression.over_text.
  rewrite frame_text_both by done. by rewrite !append_assoc.
Qed.

Lemma ToString_raises entry (schema function_name : string) :
  WindowExpression.start entry = INVALID ∨
  WindowExpression.start entry = UNBOUNDED_FOLLOWING ∨
  (WindowExpression.is_expr (WindowExpression.start entry) ∧
   WindowExpression.start_expr entry = None) ∨
  WindowExpression.end_ entry = INVALID ∨
  (WindowExpression.is_expr (WindowExpression.end_ entry) ∧
   WindowExpression.end_expr entry = None) →
  raises (WindowExpression.ToString entry schema function_name).
Proof.
  intros H. rewrite ToString_frame. unfold WindowExpression.frame_bounds.
  destruct (raises_or_returns (WindowExpression.from_switch entry "ROWS"))
    as [[msg ->]|[[from units] Hfrom]]; [by eexists|].
  rewrite Hfrom. simpl.
  assert (raises (WindowExpression.to_switch entry units)) as [msg ->];
    [|by eexists].
  destruct H as [H|[H|[H|H]]]; [| | |by apply to_switch_raises].
  - destruct (from_switch_raises entry "ROWS") as [msg Hr]; [by left|].
    by rewrite Hr in Hfrom.
  - destruct (from_switch_raises entry "ROWS") as [msg Hr]; [by right; left|].
    by rewrite Hr in Hfrom.
  - destruct (from_switch_raises entry "ROWS") as [msg Hr]; [by right; right|].
    by rewrite Hr in Hfrom.
Qed.

(** C2.  With an EXCLUDE clause both bounds are spelled out: an empty [from]
    becomes "UNBOUNDED PRECEDING", an empty [to] becomes "CURRENT ROW" with
    the units RANGE, and the frame is printed in full.  In particular the
    default frame with EXCLUDE TIES and no PARTITION BY or ORDER BY has the
    OVER clause "RANGE BETWEEN UNBOUNDED PRECEDING AND CURRENT ROW EXCLUDE
    TIES". *)
Theorem exclude_forces_both_bounds entry (schema function_name : string) :
  WindowExpression.exclude_clause entry ≠ NO_OTHER →
  WindowExpression.valid_boundaries entry →
  (∃ from units0 to units1,
     WindowExpression.from_switch entry "ROWS" = inr (from, units0) ∧
     WindowExpression.to_switch entry units0 = inr (to, units1) ∧
     let from' := if empty from then "UNBOUNDED PRECEDING" else from in
     let to' := if empty to then "CURRENT ROW" else to in
     let units' := if empty to then "RANGE" else units1 in
     WindowExpression.frame_bounds entry = inr (from', to', units') ∧
     from' ≠ "" ∧ to' ≠ "" ∧
     WindowExpression.ToString entry schema function_name =
       inr (WindowExpression.call_text entry schema function_name +:+
            ") OVER (" +:+ WindowExpression.clauses_text entry +:+
            WindowExpression.frame_sep entry +:+ units' +:+
            " BETWEEN " +:+ from' +:+ " AND " +:+ to' +:+
            WindowExpression.exclude_text entry +:+ ")")) ∧
  (WindowExpression.start entry = UNBOUNDED_PRECEDING →
   WindowExpression.end_ entry = CURRENT_ROW_RANGE →
   WindowExpression.partitions entry = [] →
   WindowExpression.orders entry = [] →
   WindowExpression.exclude_clause entry = TIES →
   WindowExpression.ToString entry schema function_name =
     inr (WindowExpression.call_text entry schema function_name +:+
          ") OVER (RANGE BETWEEN UNBOUNDED PRECEDING AND CURRENT ROW EXCLUDE TIES)")).
Proof.
  intros Hx Hv.
  destruct (frame_bounds_switches entry Hv)
    as (f & u0 & t & u1 & Hfrom & Hto & Hb & Hf & Ht & _).
  rewrite exclude_fill_other in Hb by done.
  assert ((if empty f then "UNBOUNDED PRECEDING" else f) ≠ "") as Hf'.
  { by destruct (empty f) eqn:E; [|apply empty_false in E]. }
  assert ((if empty t then "CURRENT ROW" else t) ≠ "") as Ht'.
  { by destruct (empty t) eqn:E; [|apply empty_false in E]. }
  pose proof (ToString_both entry schema function_name _ _ _ Hb Hf' Ht') as Hr.
  split.
  - by exists f, u0, t, u1.
  - intros Hs He Hp Ho Hties. rewrite Hr.
    assert (f = "") as -> by by apply Hf.
    assert (t = "") as -> by by apply Ht.
    destruct (clauses_text_nil entry Hp Ho) as [-> ->].
    unfold WindowExpression.exclude_text. rewrite Hties. by case_decide.
Qed.

(** C3.  An [EXPR_*] start or end whose offset expression is absent makes
    [ToString] raise the internal error: it returns no text. *)
Theorem missing_offset_raises entry (schema function_name : string) :
  (WindowExpression.is_expr (WindowExpression.start entry) ∧
   WindowExpression.start_expr entry = None) ∨
  (WindowExpression.is_expr (WindowExpression.end_ entry) ∧
   WindowExpression.end_expr entry = None) →
  raises (WindowExpression.ToString entry schema function_name) ∧
  ¬ returns (WindowExpression.ToString entry schema function_name).
Proof.
  intros H.
  assert (raises (WindowExpression.ToString entry schema function_name)) as Hr.
  { apply ToString_raises. tauto. }
  split; [done|]. by apply raises_not_returns.
Qed.

(** C4.  [ToString] raises the internal error, and returns no text, when
    the start is INVALID or UNBOUNDED_FOLLOWING or the end is INVALID; with
    valid boundaries it returns a text. *)
Theorem invalid_boundary_raises entry (schema function_name : string) :
  (WindowExpression.start entry = INVALID ∨
   WindowExpression.start entry = UNBOUNDED_FOLLOWING ∨
   WindowExpression.end_ entry = INVALID →
   raises (WindowExpression.ToString entry schema function_name) ∧
   ¬ returns (WindowExpression.ToString entry schema function_name)) ∧
  (WindowExpression.valid_boundaries entry →
   returns (WindowExpression.ToString entry schema function_name)).
Proof.
  split; [|apply valid_boundaries_returns].
  intros H.
  assert (raises (WindowExpression.ToString entry schema function_name)) as Hr.
  { apply ToString_raises. tauto. }
  split; [done|]. by apply raises_not_returns.
Qed.

(** C5.  With valid boundaries, after the EXCLUDE step [from] is empty if
    and only if [to] is; the printing step then appends either the whole
    "units BETWEEN from AND to" or nothing, whatever the separator, and so
    does [ToString]. *)
Theorem from_and_to_empty_together entry (schema function_name : string) :
  WindowExpression.valid_boundaries entry →
  ∃ from to units,
    WindowExpression.frame_bounds entry = inr (from, to, units) ∧
    (from = "" ↔ to = "") ∧
    (∀ sep,
       WindowExpression.frame_text sep units from to =
       if empty from then ""
       else sep +:+ units +:+ " BETWEEN " +:+ from +:+ " AND " +:+ to) ∧
    WindowExpression.ToString entry schema function_name =
      inr (WindowExpression.call_text entry schema function_name +:+
           ") OVER (" +:+ WindowExpression.clauses_text entry +:+
           (if empty from then ""
            else WindowExpression.frame_sep entry +:+ units +:+
                 " BETWEEN " +:+ from +:+ " AND " +:+ to) +:+
           WindowExpression.exclude_text entry +:+ ")").
Proof.
  intros Hv.
  destruct (frame_bounds_valid entry Hv) as (f & t & u & Hb & Hf & Ht & _).
  exists f, t, u. split; [done|].
  assert (f = "" ↔ t = "") as Hft by (rewrite Hf, Ht; tauto).
  split; [done|].
  assert (∀ sep, WindowExpression.frame_text sep u f t =
    if empty f then "" else sep +:+ u +:+ " BETWEEN " +:+ f +:+ " AND " +:+ t)
    as Htext.
  { intros sep. destruct (empty f) eqn:E.
    - apply empty_true in E. rewrite E, (proj1 Hft E). done.
    - apply empty_false in E. apply frame_text_both; [done|].
      intros E'%Hft. done. }
  split; [done|].
  rewrite ToString_frame, Hb. simpl. unfold WindowExpression.over_text.
  by rewrite Htext, !append_assoc.
Qed.

(** C6.  The units printed are those of the last bound that sets them.
    When the end is CURRENT_ROW_ROWS or one of the four [EXPR_*] boundaries,
    both bounds are printed and the units are the ones the end is named
    after, whatever the start.  (An end of UNBOUNDED_PRECEDING or
    UNBOUNDED_FOLLOWING sets none, and the units are then those of the
    start, or ROWS when the start sets none either.)  A start of
    EXPR_PRECEDING_RANGE with an end of CURRENT_ROW_ROWS prints ROWS. *)
Theorem units_follow_end entry (schema function_name : string) :
  WindowExpression.valid_boundaries entry →
  (WindowExpression.end_ entry = CURRENT_ROW_ROWS ∨
   WindowExpression.is_expr (WindowExpression.end_ entry) →
   ∃ from to,
     WindowExpression.frame_bounds entry =
       inr (from, to, WindowExpression.units_of (WindowExpression.end_ entry)) ∧
     from ≠ "" ∧ to ≠ "" ∧
     WindowExpression.ToString entry schema function_name =
       inr (WindowExpression.call_text entry schema function_name +:+
            ") OVER (" +:+ WindowExpression.clauses_text entry +:+
            WindowExpression.frame_sep entry +:+
            WindowExpression.units_of (WindowExpression.end_ entry) +:+
            " BETWEEN " +:+ from +:+ " AND " +:+ to +:+
            WindowExpression.exclude_text entry +:+ ")")) ∧
  (WindowExpression.end_ entry = UNBOUNDED_PRECEDING ∨
   WindowExpression.end_ entry = UNBOUNDED_FOLLOWING →
   ∃ from to,
     WindowExpression.frame_bounds entry =
       inr (from, to,
            if decide (WindowExpression.start entry = UNBOUNDED_PRECEDING)
            then "ROWS"
            else WindowExpression.units_of (WindowExpression.start entry)) ∧
     from ≠ "" ∧ to ≠ "") ∧
  (∀ e,
     WindowExpression.start entry = EXPR_PRECEDING_RANGE →
     WindowExpression.start_expr entry = Some e →
     WindowExpression.end_ entry = CURRENT_ROW_ROWS →
     WindowExpression.ToString entry schema function_name =
       inr (WindowExpression.call_text entry schema function_name +:+
            ") OVER (" +:+ WindowExpression.clauses_text entry +:+
            WindowExpression.frame_sep entry +:+ "ROWS" +:+
            " BETWEEN " +:+ (ToString e +:+ " PRECEDING") +:+
            " AND " +:+ "CURRENT ROW" +:+
            WindowExpression.exclude_text entry +:+ ")")).
Proof.
  intros Hv.
  destruct (frame_bounds_valid entry Hv)
    as (f & t & u & Hb & Hf & Ht & Hu & Hu').
  split; [|split].
  - intros He. rewrite (Hu He) in Hb.
    assert (f ≠ "") as Hf'.
    { intros (_ & E & _)%Hf. rewrite E in He. by destruct He. }
    assert (t ≠ "") as Ht'.
    { intros (E & _)%Ht. rewrite E in He. by destruct He. }
    exists f, t. split; [done|]. split; [done|]. split; [done|].
    by apply ToString_both.
  - intros He. rewrite (Hu' He) in Hb.
    exists f, t. split; [done|]. split.
    + intros (_ & E & _)%Hf. rewrite E in He. by destruct He.
    + intros (E & _)%Ht. rewrite E in He. by destruct He.
  - intros e Hs Hse Hee.
    apply ToString_both; [|by apply append_not_empty|done].
    unfold WindowExpression.frame_bounds, WindowExpression.from_switch,
      WindowExpression.to_switch.
    rewrite Hs, Hse, Hee. simpl.
    destruct (decide (WindowExpression.exclude_clause entry = NO_OTHER)).
    + by rewrite exclude_fill_no_other.
    + rewrite exclude_fill_other by done. simpl.
      by destruct (ToString e).
Qed.

End over.

Lemma exclude_forces_both_bounds_witness :
  WindowExpression.exclude_clause default_frame_ties ≠ NO_OTHER ∧
  WindowExpression.valid_boundaries default_frame_ties ∧
  WindowExpression.ToString default_frame_ties "" "func" =
    inr "func() OVER (RANGE BETWEEN UNBOUNDED PRECEDING AND CURRENT ROW EXCLUDE TIES)".
Proof.
  assert (WindowExpression.exclude_clause default_frame_ties ≠ NO_OTHER) as Hx.
  { done. }
  assert (WindowExpression.valid_boundaries default_frame_ties) as Hv.
  { by repeat split. }
  split; [done|]. split; [done|].
  destruct (exclude_forces_both_bounds default_frame_ties "" "func" Hx Hv)
    as [_ H].
  by apply H.
Defined.

Lemma missing_offset_raises_witness :
  (WindowExpression.is_expr (WindowExpression.end_ missing_offset) ∧
   WindowExpression.end_expr missing_offset = None) ∧
  raises (WindowExpression.ToString missing_offset "" "func").
Proof.
  assert (WindowExpression.is_expr (WindowExpression.end_ missing_offset) ∧
          WindowExpression.end_expr missing_offset = None) as H.
  { done. }
  split; [done|].
  apply (missing_offset_raises missing_offset "" "func"). by right.
Defined.

Lemma invalid_boundary_raises_witness :
  WindowExpression.start invalid_start = INVALID ∧
  raises (WindowExpression.ToString invalid_start "" "func") ∧
  WindowExpression.valid_boundaries mixed_units ∧
  returns (WindowExpression.ToString mixed_units "" "func").
Proof.
  assert (WindowExpression.valid_boundaries mixed_units) as Hv.
  { by repeat split. }
  split; [done|]. split; [|split; [done|]].
  - apply (invalid_boundary_raises invalid_start "" "func"). by left.
  - by apply (invalid_boundary_raises mixed_units "" "func").
Defined.

Lemma from_and_to_empty_together_witness :
  WindowExpression.valid_boundaries mixed_units ∧
  WindowExpression.ToString mixed_units "" "func" =
    inr "func(x) OVER (PARTITION BY p ORDER BY s DESC ROWS BETWEEN 1 PRECEDING AND CURRENT ROW)".
Proof.
  assert (WindowExpression.valid_boundaries mixed_units) as Hv.
  { by repeat split. }
  split; [done|].
  destruct (from_and_to_empty_together mixed_units "" "func" Hv)
    as (from & to & units & Hb & _ & _ & Hr).
  vm_compute in Hb. injection Hb as <- <- <-. rewrite Hr. reflexivity.
Defined.

Lemma units_follow_end_witness :
  WindowExpression.valid_boundaries mixed_units ∧
  WindowExpression.end_ mixed_units = CURRENT_ROW_ROWS ∧
  WindowExpression.ToString mixed_units "" "func" =
    inr "func(x) OVER (PARTITION BY p ORDER BY s DESC ROWS BETWEEN 1 PRECEDING AND CURRENT ROW)".
Proof.
  assert (WindowExpression.valid_boundaries mixed_units) as Hv.
  { by repeat split. }
  split; [done|]. split; [done|].
  destruct (units_follow_end mixed_units "" "func" Hv) as (_ & _ & Hr).
  by rewrite (Hr "1").
Defined.

(** ** The function call *)

Section call.
Context {BASE ORDER_NODE : Type}.
Context {base_ToString : Renderable BASE}.
Context {order_ToString : Renderable ORDER_NODE}.

Implicit Types (entry : WindowExpression.t BASE ORDER_NODE).

Lemma int_incr_in_range (d : Z) : 0 ≤ d → d + 1 ≤ INT_MAX → int_incr d = d + 1.
Proof.
  unfold int_incr, int_wrap, INT_MAX. intros H1 H2.
  rewrite Z.mod_small; lia.
Qed.

(** Once the counter has left zero, and as long as it stays in range, the
    closure adds no prefix. *)
Lemma Join_rest_later (l : list BASE) (d : Z) (result : string) :
  1 ≤ d → d + Z.of_nat (length l) ≤ INT_MAX →
  fst (StringUtil.Join_rest l ", " WindowExpression.distinct_child d result) =
  result +:+ WindowExpression.later_children l.
Proof.
  revert d result. induction l as [|child l IH]; intros d result Hd Hl.
  - simpl. by rewrite append_nil_r.
  - simpl in *. unfold WindowExpression.distinct_child at 1.
    case_decide; [|lia]. rewrite int_incr_in_range by lia.
    rewrite IH by lia. by rewrite !append_assoc.
Qed.

Lemma children_text_distinct entry (child : BASE) (rest : list BASE) :
  WindowExpression.distinct entry = true →
  WindowExpression.children entry = child :: rest →
  Z.of_nat (length (WindowExpression.children entry)) ≤ INT_MAX →
  WindowExpression.children_text entry =
  "DISTINCT " +:+ ToString child +:+ WindowExpression.later_children rest.
Proof.
  unfold WindowExpression.children_text, StringUtil.Join.
  intros -> -> Hl. simpl in Hl. case_decide; [|done].
  rewrite firstn_all. unfold WindowExpression.distinct_child at 1.
  case_decide; [done|].
  rewrite int_incr_in_range by (unfold INT_MAX; lia).
  rewrite Join_rest_later by lia. by rewrite append_assoc.
Qed.

(** C7.  With DISTINCT set and a first child, the text of the children is
    "DISTINCT " before the first child and every later child bare behind its
    ", ", however many there are as long as the [int] counter can count
    them; and, the boundaries being valid, that is what [ToString] puts
    after the opening parenthesis.  Two children [a], [b] and nothing else
    inside the call give "func(DISTINCT a, b)". *)
Theorem distinct_prefixes_first_child_only entry (schema function_name : string)
    (child : BASE) (rest : list BASE) :
  WindowExpression.distinct entry = true →
  WindowExpression.children entry = child :: rest →
  Z.of_nat (length (WindowExpression.children entry)) ≤ INT_MAX →
  WindowExpression.children_text entry =
    "DISTINCT " +:+ ToString child +:+ WindowExpression.later_children rest ∧
  (WindowExpression.valid_boundaries entry →
   ∃ from to units,
     WindowExpression.frame_bounds entry = inr (from, to, units) ∧
     WindowExpression.ToString entry schema function_name =
       inr (WindowExpression.qualified_name schema function_name +:+ "(" +:+
            "DISTINCT " +:+ ToString child +:+
            WindowExpression.later_children rest +:+
            WindowExpression.lead_lag_text entry +:+
            WindowExpression.arg_orders_text entry +:+
            WindowExpression.ignore_nulls_text entry +:+
            WindowExpression.filter_text entry +:+
            ") OVER (" +:+ WindowExpression.over_text entry from to units +:+
            ")") ∧
     (∀ a b,
        WindowExpression.children entry = [a; b] →
        WindowExpression.offset_expr entry = None →
        WindowExpression.default_expr entry = None →
        WindowExpression.arg_orders entry = [] →
        WindowExpression.ignore_nulls entry = false →
        WindowExpression.filter_expr entry = None →
        WindowExpression.ToString entry "" "func" =
          inr ("func(DISTINCT " +:+ ToString a +:+ ", " +:+ ToString b +:+
               ") OVER (" +:+ WindowExpression.over_text entry from to units +:+
               ")"))).
Proof.
  intros Hd Hc Hl.
  pose proof (children_text_distinct entry child rest Hd Hc Hl) as Ht.
  split; [done|]. intros Hv.
  destruct (frame_bounds_valid entry Hv) as (f & t & u & Hb & _).
  exists f, t, u. split; [done|]. split.
  - rewrite ToString_frame, Hb. simpl.
    unfold WindowExpression.call_text, WindowExpression.args_text.
    by rewrite Ht, !append_assoc.
  - intros a b Hab Ho Hde Ha Hi Hf.
    rewrite Hc in Hab. injection Hab as -> ->.
    rewrite ToString_frame, Hb. simpl.
    unfold WindowExpression.call_text, WindowExpression.args_text.
    rewrite Ht. unfold WindowExpression.lead_lag_text,
      WindowExpression.arg_orders_text, WindowExpression.ignore_nulls_text,
      WindowExpression.filter_text.
    rewrite Ho, Hde, Ha, Hi, Hf. case_decide; [done|]. simpl.
    unfold ret. f_equal. by normalize_append.
Qed.

(** C8.  With a filter, the parenthesis of the call is closed by the FILTER
    step, in front of the word FILTER, and the parenthesis in front of OVER
    closes the FILTER clause; with no filter the parenthesis of the call is
    the one in front of OVER.  The text in front of it is the same either
    way.  One child [x] and a filter [p] give "func(x) FILTER (WHERE p)
    OVER (...)". *)
Theorem filter_closes_call_parenthesis entry (schema function_name : string) :
  WindowExpression.valid_boundaries entry →
  ∃ from to units,
    WindowExpression.frame_bounds entry = inr (from, to, units) ∧
    WindowExpression.ToString entry schema function_name =
      inr (WindowExpression.args_text entry schema function_name +:+
           match WindowExpression.filter_expr entry with
           | Some p => ") FILTER (WHERE " +:+ ToString p +:+ ") OVER ("
           | None => ") OVER ("
           end +:+
           WindowExpression.over_text entry from to units +:+ ")") ∧
    (∀ x p,
       WindowExpression.children entry = [x] →
       WindowExpression.distinct entry = false →
       WindowExpression.offset_expr entry = None →
       WindowExpression.default_expr entry = None →
       WindowExpression.arg_orders entry = [] →
       WindowExpression.ignore_nulls entry = false →
       WindowExpression.filter_expr entry = Some p →
       WindowExpression.ToString entry "" "func" =
         inr ("func(" +:+ ToString x +:+ ") FILTER (WHERE " +:+ ToString p +:+
              ") OVER (" +:+ WindowExpression.over_text entry from to units +:+
              ")")).
Proof.
  intros Hv.
  destruct (frame_bounds_valid entry Hv) as (f & t & u & Hb & _).
  exists f, t, u. split; [done|]. split.
  - rewrite ToString_frame, Hb. simpl.
    unfold WindowExpression.call_text, WindowExpression.filter_text.
    destruct (WindowExpression.filter_expr entry); by rewrite !append_assoc.
  - intros x p Hc Hd Ho Hde Ha Hi Hf.
    rewrite ToString_frame, Hb. simpl.
    unfold WindowExpression.call_text, WindowExpression.args_text,
      WindowExpression.children_text, WindowExpression.lead_lag_text,
      WindowExpression.arg_orders_text, WindowExpression.ignore_nulls_text,
      WindowExpression.filter_text, StringUtil.Join,
      WindowExpression.distinct_child.
    rewrite Hc, Hd, Ho, Hde, Ha, Hi, Hf. simpl. repeat case_decide; try done.
    unfold ret. f_equal. by normalize_append.
Qed.

End call.

Lemma distinct_prefixes_first_child_only_witness :
  WindowExpression.distinct distinct_pair = true ∧
  WindowExpression.children distinct_pair = ["a"; "b"] ∧
  Z.of_nat (length (WindowExpression.children distinct_pair)) ≤ INT_MAX ∧
  WindowExpression.valid_boundaries distinct_pair ∧
  WindowExpression.ToString distinct_pair "" "func" =
    inr "func(DISTINCT a, b) OVER ()".
Proof.
  assert (Z.of_nat (length (WindowExpression.children distinct_pair)) ≤ INT_MAX)
    as Hl.
  { by vm_compute. }
  assert (WindowExpression.valid_boundaries distinct_pair) as Hv.
  { by repeat split. }
  split; [done|]. split; [done|]. split; [done|]. split; [done|].
  destruct (distinct_prefixes_first_child_only distinct_pair "" "func"
              "a" ["b"] eq_refl eq_refl Hl)
    as (_ & from & to & units & Hb & _ & Hr); [done|].
  vm_compute in Hb. injection Hb as <- <- <-.
  by rewrite (Hr "a" "b").
Defined.

Lemma filter_closes_call_parenthesis_witness :
  WindowExpression.valid_boundaries filtered ∧
  WindowExpression.ToString filtered "" "func" =
    inr "func(x) FILTER (WHERE p) OVER ()".
Proof.
  assert (WindowExpression.valid_boundaries filtered) as Hv.
  { by repeat split. }
  split; [done|].
  destruct (filter_closes_call_parenthesis filtered "" "func" Hv)
    as (from & to & units & Hb & _ & Hr).
  vm_compute in Hb. injection Hb as <- <- <-.
  by rewrite (Hr "x" "p").
Defined.

(** ** Determinism

    [ToString] reads the entry and asks its nodes for their text; it keeps
    nothing from one invocation to the next (the DISTINCT counter is a
    local).  Two invocations are therefore two runs of the same function,
    each with the node texts it was given. *)

Section determinism.
Context {BASE ORDER_NODE : Type}.
Variables (first second : Renderable BASE).
Variables (first_order second_order : Renderable ORDER_NODE).

Implicit Types (entry : WindowExpression.t BASE ORDER_NODE).

Lemma Join_rest_ext {A S} (l : list A) (separator : string)
    (f g : S → A → string * S) (st : S) (result : string) :
  (∀ x st, x ∈ l → f st x = g st x) →
  StringUtil.Join_rest l separator f st result =
  StringUtil.Join_rest l separator g st result.
Proof.
  revert st result. induction l as [|x l IH]; intros st result H; [done|].
  simpl. rewrite (H x st) by left. destruct (g st x) as [s st'].
  apply IH. intros y st'' Hy. apply H. by right.
Qed.

Lemma Join_ext {A S} (l : list A) (count : nat) (separator : string)
    (f g : S → A → string * S) (st : S) :
  (∀ x st, x ∈ l → f st x = g st x) →
  StringUtil.Join l count separator f st =
  StringUtil.Join l count separator g st.
Proof.
  intros H. unfold StringUtil.Join.
  assert (∀ x, x ∈ take count l → x ∈ l) as Hin.
  { intros x Hx. rewrite <- (take_drop count l). apply elem_of_app. by left. }
  destruct (take count l) as [|x l']; [done|].
  rewrite (H x st) by (apply Hin; left). destruct (g st x) as [s st'].
  apply Join_rest_ext. intros y st'' Hy. apply H, Hin. by right.
Qed.

(** C9.  Two invocations of [ToString] on the same entry, in which every
    node the entry owns and every order node gives the same text both times,
    yield identical results: the same text, or the same error. *)
Theorem render_deterministic entry (schema function_name : string) :
  (∀ e : BASE, e ∈ WindowExpression.owned entry → first e = second e) →
  (∀ o : ORDER_NODE,
     o ∈ WindowExpression.orders entry ++ WindowExpression.arg_orders entry →
     first_order o = second_order o) →
  WindowExpression.ToString (base_ToString := first)
    (order_ToString := first_order) entry schema function_name =
  WindowExpression.ToString (base_ToString := second)
    (order_ToString := second_order) entry schema function_name.
Proof.
  intros Hnodes Horders.
  assert (∀ e, e ∈ WindowExpression.owned entry →
            @ToString _ first e = @ToString _ second e) as Hn by exact Hnodes.
  assert (∀ o, o ∈ WindowExpression.orders entry ++
                   WindowExpression.arg_orders entry →
            @ToString _ first_order o = @ToString _ second_order o)
    as Ho by exact Horders.
  clear Hnodes Horders. unfold WindowExpression.owned in Hn.
  assert (WindowExpression.children_text (base_ToString := first) entry =
          WindowExpression.children_text (base_ToString := second) entry) as Hc.
  { unfold WindowExpression.children_text. case_decide; [|done]. f_equal.
    apply Join_ext. intros x st Hx. unfold WindowExpression.distinct_child.
    rewrite Hn; [done|]. set_solver. }
  assert (WindowExpression.lead_lag_text (base_ToString := first) entry =
          WindowExpression.lead_lag_text (base_ToString := second) entry) as Hl.
  { unfold WindowExpression.lead_lag_text.
    destruct (WindowExpression.offset_expr entry) as [e1|],
      (WindowExpression.default_expr entry) as [e2|]; simpl in Hn;
      rewrite ?(Hn e1), ?(Hn e2); first done; set_solver. }
  assert (WindowExpression.arg_orders_text (order_ToString := first_order) entry =
          WindowExpression.arg_orders_text (order_ToString := second_order) entry)
    as Ha.
  { unfold WindowExpression.arg_orders_text. case_decide; [|done]. do 2 f_equal.
    apply Join_ext. intros x st Hx. unfold stateless.
    rewrite Ho; [done|]. set_solver. }
  assert (WindowExpression.filter_text (base_ToString := first) entry =
          WindowExpression.filter_text (base_ToString := second) entry) as Hfi.
  { unfold WindowExpression.filter_text.
    destruct (WindowExpression.filter_expr entry) as [e|]; [|done].
    simpl in Hn. rewrite (Hn e); [done|]. set_solver. }
  assert (∀ sep,
    WindowExpression.partitions_text (base_ToString := first) entry sep =
    WindowExpression.partitions_text (base_ToString := second) entry sep) as Hp.
  { intros sep. unfold WindowExpression.partitions_text.
    case_decide; [|done]. do 3 f_equal.
    apply Join_ext. intros x st Hx. unfold stateless.
    rewrite Hn; [done|]. set_solver. }
  assert (∀ sep,
    WindowExpression.orders_text (order_ToString := first_order) entry sep =
    WindowExpression.orders_text (order_ToString := second_order) entry sep)
    as Hor.
  { intros sep. unfold WindowExpression.orders_text.
    case_decide; [|done]. do 4 f_equal.
    apply Join_ext. intros x st Hx. unfold stateless.
    rewrite Ho; [done|]. set_solver. }
  assert (∀ units,
    WindowExpression.from_switch (base_ToString := first) entry units =
    WindowExpression.from_switch (base_ToString := second) entry units) as Hf.
  { intros units. unfold WindowExpression.from_switch.
    destruct (WindowExpression.start_expr entry) as [e|]; simpl in *.
    - rewrite (Hn e); [done|]. set_solver.
    - done. }
  assert (∀ units,
    WindowExpression.to_switch (base_ToString := first) entry units =
    WindowExpression.to_switch (base_ToString := second) entry units) as Ht.
  { intros units. unfold WindowExpression.to_switch.
    destruct (WindowExpression.end_expr entry) as [e|]; simpl in *.
    - rewrite (Hn e); [done|]. set_solver.
    - done. }
  unfold WindowExpression.ToString.
  rewrite Hc, Hl, Ha, Hfi, Hp. destruct (WindowExpression.partitions_text entry "") as [pt sep].
  rewrite Hor. destruct (WindowExpression.orders_text entry sep) as [ot sep'].
  rewrite Hf. destruct (WindowExpression.from_switch entry "ROWS")
    as [|[from units]]; [done|].
  simpl. by rewrite Ht.
Qed.

End determinism.

Lemma render_deterministic_witness :
  (∀ e : string, e ∈ WindowExpression.owned mixed_units →
     text_ToString e = second_ToString e) ∧
  (∀ o : string,
     o ∈ WindowExpression.orders mixed_units ++
         WindowExpression.arg_orders mixed_units →
     text_ToString o = second_ToString o) ∧
  text_ToString "y" ≠ second_ToString "y" ∧
  WindowExpression.ToString (base_ToString := text_ToString)
    (order_ToString := text_ToString) mixed_units "" "func" =
  WindowExpression.ToString (base_ToString := second_ToString)
    (order_ToString := second_ToString) mixed_units "" "func".
Proof.
  assert (∀ e : string, e ∈ ["x"; "p"; "1"; "s DESC"] →
            text_ToString e = second_ToString e) as H.
  { intros e He. unfold second_ToString. by rewrite bool_decide_eq_true_2. }
  assert (∀ e : string, e ∈ WindowExpression.owned mixed_units →
            text_ToString e = second_ToString e) as Hn.
  { intros e He. apply H. cbn in He.
    rewrite !elem_of_cons in He. rewrite !elem_of_cons. tauto. }
  assert (∀ o : string,
     o ∈ WindowExpression.orders mixed_units ++
         WindowExpression.arg_orders mixed_units →
     text_ToString o = second_ToString o) as Ho.
  { intros e He. apply H. cbn in He.
    rewrite !elem_of_cons in He. rewrite !elem_of_cons. tauto. }
  split; [done|]. split; [done|]. split; [done|].
  exact (render_deterministic text_ToString second_ToString text_ToString
           second_ToString mixed_units "" "func" Hn Ho).
Defined.

(** ** Copies in the store *)

Section copies.
Context {Node : Type} {node_ops : NodeOps Node}.

Implicit Types (h : Arena.heap Node) (s : Arena.spec) (l : Arena.loc).

Lemma is_copy_mono (h0 h' h'' : Arena.heap Node) l l' :
  h' ⊆ h'' → Arena.is_copy h0 h' l l' → Arena.is_copy h0 h'' l l'.
Proof.
  intros Hsub (n & H1 & H2). exists n. split; [done|].
  by eapply lookup_weaken.
Qed.

Lemma is_copy_ptr_mono (h0 h' h'' : Arena.heap Node) (p p' : unique_ptr Arena.loc) :
  h' ⊆ h'' → Arena.is_copy_ptr h0 h' p p' → Arena.is_copy_ptr h0 h'' p p'.
Proof. destruct p, p'; simpl; eauto using is_copy_mono. Qed.

Lemma is_copy_order_mono (h0 h' h'' : Arena.heap Node) (o o' : OrderByNode Arena.loc) :
  h' ⊆ h'' → Arena.is_copy_order h0 h' o o' → Arena.is_copy_order h0 h'' o o'.
Proof.
  intros Hsub (H1 & H2 & H3). split; [done|]. split; [done|].
  by eapply is_copy_mono.
Qed.

(** Allocations one after the other. *)
Lemma allocated_nil h : Arena.allocated h h [].
Proof.
  split; [constructor|]. split.
  - intros l Hl. by apply elem_of_nil in Hl.
  - simpl. by rewrite (right_id_L ∅ (∪)).
Qed.

Lemma allocated_app h h1 h2 (news1 news2 : list Arena.loc) :
  Arena.allocated h h1 news1 → Arena.allocated h1 h2 news2 →
  Arena.allocated h h2 (news1 ++ news2).
Proof.
  intros (N1 & F1 & D1) (N2 & F2 & D2). split; [|split].
  - apply NoDup_app. split; [done|]. split; [|done].
    intros l Hl1 Hl2. apply (F2 l Hl2). rewrite D1.
    apply elem_of_union. right. by apply elem_of_list_to_set.
  - intros l [Hl|Hl]%elem_of_app; [by apply F1|].
    intros Hd. apply (F2 l Hl). rewrite D1. apply elem_of_union. by left.
  - by rewrite D2, D1, list_to_set_app_L, (assoc_L (∪)).
Qed.

Lemma copy_node_spec (h0 h : Arena.heap Node) l :
  h0 ⊆ h → l ∈ dom h0 →
  ∃ h' l', Arena.copy_node l h = Some (h', l') ∧ h ⊆ h' ∧
           Arena.is_copy h0 h' l l' ∧ Arena.allocated h h' [l'].
Proof.
  intros Hsub [n Hn]%elem_of_dom.
  assert (h !! l = Some n) as Hl by by eapply lookup_weaken.
  assert (h !! fresh (dom h) = None) as Hfresh.
  { apply not_elem_of_dom, is_fresh. }
  unfold Arena.copy_node, Arena.alloc. rewrite Hl. simpl.
  eexists _, _. split; [done|]. split; [by apply insert_subseteq|]. split.
  - exists n. split; [done|]. by rewrite lookup_insert_eq.
  - split; [apply NoDup_singleton|]. split.
    + intros x ->%list_elem_of_singleton. apply is_fresh.
    + rewrite dom_insert_L. simpl.
      by rewrite (right_id_L ∅ (∪)), (comm_L (∪)).
Qed.

Lemma copy_list_spec (h0 h : Arena.heap Node) (ls : list Arena.loc) :
  h0 ⊆ h → (∀ l, l ∈ ls → l ∈ dom h0) →
  ∃ h' ls', Arena.copy_list ls h = Some (h', ls') ∧ h ⊆ h' ∧
            Forall2 (Arena.is_copy h0 h') ls ls' ∧ Arena.allocated h h' ls'.
Proof.
  revert h. induction ls as [|l ls IH]; intros h Hsub Hin.
  - exists h, []. split; [done|]. split; [done|]. split; [constructor|].
    apply allocated_nil.
  - destruct (copy_node_spec h0 h l Hsub) as (h1 & l' & E1 & S1 & C1 & A1).
    { apply Hin. by left. }
    destruct (IH h1) as (h2 & ls' & E2 & S2 & C2 & A2).
    { by etrans. }
    { intros x Hx. apply Hin. by right. }
    exists h2, (l' :: ls'). simpl. rewrite E1. simpl. rewrite E2. simpl.
    split; [done|]. split; [by etrans|]. split.
    + constructor; [|done]. by eapply is_copy_mono.
    + exact (allocated_app h h1 h2 [l'] ls' A1 A2).
Qed.

Lemma copy_ptr_spec (h0 h : Arena.heap Node) (p : unique_ptr Arena.loc) :
  h0 ⊆ h → (∀ l, l ∈ option_list p → l ∈ dom h0) →
  ∃ h' p', Arena.copy_ptr p h = Some (h', p') ∧ h ⊆ h' ∧
           Arena.is_copy_ptr h0 h' p p' ∧
           Arena.allocated h h' (option_list p').
Proof.
  intros Hsub Hin. destruct p as [l|].
  - destruct (copy_node_spec h0 h l Hsub) as (h1 & l' & E1 & S1 & C1 & A1).
    { apply Hin. by left. }
    exists h1, (Some l'). simpl. rewrite E1.
    split; [done|]. split; [done|]. split; [done|]. exact A1.
  - exists h, None. split; [done|]. split; [done|]. split; [done|].
    apply allocated_nil.
Qed.

Lemma copy_orders_spec (h0 h : Arena.heap Node) (os : list (OrderByNode Arena.loc)) :
  h0 ⊆ h → (∀ l, l ∈ expression <$> os → l ∈ dom h0) →
  ∃ h' os', Arena.copy_orders os h = Some (h', os') ∧ h ⊆ h' ∧
            Forall2 (Arena.is_copy_order h0 h') os os' ∧
            Arena.allocated h h' (expression <$> os').
Proof.
  revert h. induction os as [|o os IH]; intros h Hsub Hin.
  - exists h, []. split; [done|]. split; [done|]. split; [constructor|].
    apply allocated_nil.
  - destruct (copy_node_spec h0 h (expression o) Hsub)
      as (h1 & l' & E1 & S1 & C1 & A1).
    { apply Hin. by left. }
    destruct (IH h1) as (h2 & os' & E2 & S2 & C2 & A2).
    { by etrans. }
    { intros x Hx. apply Hin. by right. }
    exists h2, (mkOrderByNode (type o) (null_order o) l' :: os').
    simpl. unfold Arena.copy_order. rewrite E1. simpl. rewrite E2. simpl.
    split; [done|]. split; [by etrans|]. split.
    + constructor; [|done]. repeat split. by eapply is_copy_mono.
    + exact (allocated_app h h1 h2 [l'] (expression <$> os') A1 A2).
Qed.

Local Ltac owned_live :=
  let l := fresh "l" in
  let Hl := fresh "Hl" in
  intros l Hl;
  match goal with
  | H : ∀ l, l ∈ _ → l ∈ dom _ |- _ => apply H; rewrite !elem_of_app; tauto
  end.

(** [Copy] has a result on a well-formed entry; the result is a copy, and
    its nodes are the addresses the store has gained. *)
Lemma Copy_spec h s :
  Arena.well_formed h s →
  ∃ h' s', Arena.Copy s h = Some (h', s') ∧ h ⊆ h' ∧
           Arena.copy_of h h' s s' ∧
           Arena.allocated h h' (Arena.handles s').
Proof.
  intros Hwf. unfold Arena.well_formed, Arena.handles in Hwf.
  assert (∀ h1 h2 : Arena.heap Node, h1 ⊆ h2 →
            ∀ l l', Arena.is_copy h h1 l l' → Arena.is_copy h h2 l l') as M1.
  { intros ??????. by eapply is_copy_mono. }
  assert (∀ h1 h2 : Arena.heap Node, h1 ⊆ h2 →
            ∀ o o', Arena.is_copy_order h h1 o o' →
                    Arena.is_copy_order h h2 o o') as M2.
  { intros ??????. by eapply is_copy_order_mono. }
  destruct (copy_list_spec h h (WindowExpression.children s))
    as (h1 & c' & E1 & S1 & C1 & A1); [done|owned_live|].
  destruct (copy_list_spec h h1 (WindowExpression.partitions s))
    as (h2 & p' & E2 & S2 & C2 & A2); [done|owned_live|].
  assert (h ⊆ h2) as T2 by by etrans.
  destruct (copy_orders_spec h h2 (WindowExpression.orders s))
    as (h3 & o' & E3 & S3 & C3 & A3); [done|owned_live|].
  assert (h ⊆ h3) as T3 by by etrans.
  destruct (copy_ptr_spec h h3 (WindowExpression.filter_expr s))
    as (h4 & f' & E4 & S4 & C4 & A4); [done|owned_live|].
  assert (h ⊆ h4) as T4 by by etrans.
  destruct (copy_ptr_spec h h4 (WindowExpression.start_expr s))
    as (h5 & se' & E5 & S5 & C5 & A5); [done|owned_live|].
  assert (h ⊆ h5) as T5 by by etrans.
  destruct (copy_ptr_spec h h5 (WindowExpression.end_expr s))
    as (h6 & ee' & E6 & S6 & C6 & A6); [done|owned_live|].
  assert (h ⊆ h6) as T6 by by etrans.
  destruct (copy_ptr_spec h h6 (WindowExpression.offset_expr s))
    as (h7 & oe' & E7 & S7 & C7 & A7); [done|owned_live|].
  assert (h ⊆ h7) as T7 by by etrans.
  destruct (copy_ptr_spec h h7 (WindowExpression.default_expr s))
    as (h8 & de' & E8 & S8 & C8 & A8); [done|owned_live|].
  assert (h ⊆ h8) as T8 by by etrans.
  destruct (copy_orders_spec h h8 (WindowExpression.arg_orders s))
    as (h9 & ao' & E9 & S9 & C9 & A9); [done|owned_live|].
  assert (h8 ⊆ h9) as U8 by done.
  assert (h7 ⊆ h9) as U7 by by etrans.
  assert (h6 ⊆ h9) as U6 by by etrans.
  assert (h5 ⊆ h9) as U5 by by etrans.
  assert (h4 ⊆ h9) as U4 by by etrans.
  assert (h3 ⊆ h9) as U3 by by etrans.
  assert (h2 ⊆ h9) as U2 by by etrans.
  assert (h1 ⊆ h9) as U1 by by etrans.
  eexists h9, _. unfold Arena.Copy.
  rewrite E1; simpl. rewrite E2; simpl. rewrite E3; simpl.
  rewrite E4; simpl. rewrite E5; simpl. rewrite E6; simpl.
  rewrite E7; simpl. rewrite E8; simpl. rewrite E9; simpl.
  split; [done|]. split; [by etrans|]. split.
  - unfold Arena.copy_of; simpl. do 8 (split; [done|]).
    split; [exact (Forall2_impl _ _ _ _ C1 (M1 h1 h9 U1))|].
    split; [exact (Forall2_impl _ _ _ _ C2 (M1 h2 h9 U2))|].
    split; [exact (Forall2_impl _ _ _ _ C3 (M2 h3 h9 U3))|].
    split; [exact (is_copy_ptr_mono _ _ _ _ _ U4 C4)|].
    split; [exact (is_copy_ptr_mono _ _ _ _ _ U5 C5)|].
    split; [exact (is_copy_ptr_mono _ _ _ _ _ U6 C6)|].
    split; [exact (is_copy_ptr_mono _ _ _ _ _ U7 C7)|].
    split; [exact (is_copy_ptr_mono _ _ _ _ _ U8 C8)|].
    done.
  - unfold Arena.handles; simpl.
    apply (allocated_app h h1 h9); [done|].
    apply (allocated_app h1 h2 h9); [done|].
    apply (allocated_app h2 h3 h9); [done|].
    apply (allocated_app h3 h4 h9); [done|].
    apply (allocated_app h4 h5 h9); [done|].
    apply (allocated_app h5 h6 h9); [done|].
    apply (allocated_app h6 h7 h9); [done|].
    by apply (allocated_app h7 h8 h9).
Qed.

(** A node equals its copy as soon as the nodes' own [clone] gives an equal
    node. *)
Section equal.
Hypothesis clone_equal : ∀ n : Node, node_equal n (node_clone n) = true.

Lemma equal_node_copy (h h' : Arena.heap Node) l l' :
  h ⊆ h' → Arena.is_copy h h' l l' → Arena.equal_node h' l l' = true.
Proof.
  intros Hsub (n & H1 & H2). unfold Arena.equal_node.
  by rewrite (lookup_weaken _ _ _ _ H1 Hsub), H2.
Qed.

Lemma equal_list_copy (h h' : Arena.heap Node) (ls ls' : list Arena.loc) :
  h ⊆ h' → Forall2 (Arena.is_copy h h') ls ls' →
  Arena.equal_list h' ls ls' = true.
Proof.
  intros Hsub. induction 1 as [|l l' ls ls' Hc _ IH]; [done|].
  simpl. by rewrite (equal_node_copy h h' l l'), IH.
Qed.

Lemma equal_ptr_copy (h h' : Arena.heap Node) (p p' : unique_ptr Arena.loc) :
  h ⊆ h' → Arena.is_copy_ptr h h' p p' → Arena.equal_ptr h' p p' = true.
Proof.
  intros Hsub. destruct p, p'; simpl; try done. by apply equal_node_copy.
Qed.

Lemma equal_orders_copy (h h' : Arena.heap Node)
    (os os' : list (OrderByNode Arena.loc)) :
  h ⊆ h' → Forall2 (Arena.is_copy_order h h') os os' →
  Arena.equal_orders h' os os' = true.
Proof.
  intros Hsub. induction 1 as [|o o' os os' (Ht & Hn & Hc) _ IH]; [done|].
  simpl. unfold Arena.equal_order.
  rewrite Ht, Hn, !bool_decide_eq_true_2 by done.
  by rewrite (equal_node_copy h h' _ _ Hsub Hc), IH.
Qed.

Lemma Equal_copy (h h' : Arena.heap Node) s s' :
  h ⊆ h' → Arena.copy_of h h' s s' → Arena.Equal h' s s' = true.
Proof.
  intros Hsub (E1 & E2 & E3 & E4 & E5 & E6 & E7 & E8 &
               C1 & C2 & C3 & C4 & C5 & C6 & C7 & C8 & C9).
  unfold Arena.Equal. rewrite E1, E2, E3, E4, E5, E6, E7, E8.
  rewrite !bool_decide_eq_true_2 by done.
  rewrite (equal_list_copy h h' _ _ Hsub C1), (equal_list_copy h h' _ _ Hsub C2),
    (equal_orders_copy h h' _ _ Hsub C3), (equal_orders_copy h h' _ _ Hsub C9),
    (equal_ptr_copy h h' _ _ Hsub C4), (equal_ptr_copy h h' _ _ Hsub C5),
    (equal_ptr_copy h h' _ _ Hsub C6), (equal_ptr_copy h h' _ _ Hsub C7),
    (equal_ptr_copy h h' _ _ Hsub C8).
  done.
Qed.

End equal.

(** C10.  For every well-formed entry [s], [Copy] returns an entry [s']
    with [Equal s s']: the same names, flags and enumerations, and in the
    place of every node a copy of it.  The nodes of [s'] are at addresses
    that were not in use before, no two at the same address, so none is a
    node of [s]; the nodes of [s] are where and what they were; and storing
    anything into a node of [s'] leaves every node of [s] as it was. *)
Theorem copy_equal_and_unshared h s :
  (∀ n : Node, node_equal n (node_clone n) = true) →
  Arena.well_formed h s →
  ∃ h' s',
    Arena.Copy s h = Some (h', s') ∧
    Arena.Equal h' s s' = true ∧
    Arena.copy_of h h' s s' ∧
    NoDup (Arena.handles s') ∧
    dom h' = dom h ∪ list_to_set (Arena.handles s') ∧
    (∀ l', l' ∈ Arena.handles s' → (l' ∉ dom h) ∧ (l' ∉ Arena.handles s)) ∧
    (∀ l, l ∈ Arena.handles s → h' !! l = h !! l) ∧
    (∀ l' (n : Node) l,
       l' ∈ Arena.handles s' → l ∈ Arena.handles s →
       <[l' := n]> h' !! l = h !! l).
Proof.
  intros Hclone Hwf.
  destruct (Copy_spec h s Hwf)
    as (h' & s' & Hcopy & Hsub & Hof & Hnodup & Hfresh & Hdom).
  assert (∀ l, l ∈ Arena.handles s → h' !! l = h !! l) as Hsame.
  { intros l [n Hn]%Hwf%elem_of_dom. rewrite Hn. by eapply lookup_weaken. }
  exists h', s'. split; [done|].
  split; [exact (Equal_copy Hclone h h' s s' Hsub Hof)|].
  split; [done|]. split; [done|]. split; [done|].
  split; [|split; [done|]].
  - intros l' Hl'. split; [by apply Hfresh|].
    intros Hl. by apply (Hfresh l' Hl'), Hwf.
  - intros l' n l Hl' Hl. rewrite lookup_insert_ne; [by apply Hsame|].
    intros ->. by apply (Hfresh l Hl'), Hwf.
Qed.

End copies.

Lemma copy_equal_and_unshared_witness :
  (∀ n : string, node_equal n (node_clone n) = true) ∧
  Arena.well_formed small_heap small_spec ∧
  ∃ h' s',
    Arena.Copy small_spec small_heap = Some (h', s') ∧
    Arena.Equal h' small_spec s' = true.
Proof.
  assert (∀ n : string, node_equal n (node_clone n) = true) as Hclone.
  { intros n. apply String.eqb_refl. }
  assert (Arena.well_formed small_heap small_spec) as Hwf.
  { intros l Hl. cbn in Hl. rewrite !elem_of_cons in Hl.
    destruct Hl as [->|[->|[->|Hl]]]; [by vm_compute..|].
    by apply elem_of_nil in Hl. }
  split; [done|]. split; [done|].
  destruct (copy_equal_and_unshared small_heap small_spec Hclone Hwf)
    as (h' & s' & Hc & He & _).
  by exists h', s'.
Defined.

(** * Further properties of [ToString] *)

(** ** When it throws, and what *)

Section failure.
Context {BASE ORDER_NODE : Type}.
Context {base_ToString : Renderable BASE}.
Context {order_ToString : Renderable ORDER_NODE}.

Implicit Types (entry : WindowExpression.t BASE ORDER_NODE).

(** X1.  [ToString] returns a text exactly when the boundaries are valid:
    any other entry makes it throw. *)
Theorem returns_iff_valid_boundaries entry (schema function_name : string) :
  returns (WindowExpression.ToString entry schema function_name) ↔
  WindowExpression.valid_boundaries entry.
Proof.
  split; [|apply valid_boundaries_returns].
  intros Hret.
  assert (∀ P : Prop,
    (P → raises (WindowExpression.ToString entry schema function_name)) →
    ¬ P) as Hnot.
  { intros P HP Hp. by apply (raises_not_returns _ (HP Hp)). }
  repeat split.
  - apply Hnot. intros H. apply ToString_raises. tauto.
  - apply Hnot. intros H. apply ToString_raises. tauto.
  - apply Hnot. intros H. apply ToString_raises. tauto.
  - intros Hs. destruct (WindowExpression.start_expr entry) eqn:E; [done|].
    exfalso. revert Hs. apply Hnot. intros H. apply ToString_raises. tauto.
  - intros He. destruct (WindowExpression.end_expr entry) eqn:E; [done|].
    exfalso. revert He. apply Hnot. intros H. apply ToString_raises. tauto.
Qed.

(** X2.  The exception names the switch that threw, and the start is looked
    at first: a start of INVALID or UNBOUNDED_FOLLOWING gives "Unrecognized
    FROM in WindowExpression" whatever the end is, and an end of INVALID
    gives "Unrecognized TO in WindowExpression" only behind a start that
    the first switch accepts. *)
Theorem exception_names_the_switch entry (schema function_name : string) :
  (WindowExpression.start entry = INVALID ∨
   WindowExpression.start entry = UNBOUNDED_FOLLOWING →
   WindowExpression.ToString entry schema function_name =
     inl (InternalException "Unrecognized FROM in WindowExpression")) ∧
  (WindowExpression.start entry ≠ INVALID →
   WindowExpression.start entry ≠ UNBOUNDED_FOLLOWING →
   (WindowExpression.is_expr (WindowExpression.start entry) →
    is_Some (WindowExpression.start_expr entry)) →
   WindowExpression.end_ entry = INVALID →
   WindowExpression.ToString entry schema function_name =
     inl (InternalException "Unrecognized TO in WindowExpression")).
Proof.
  rewrite ToString_frame. unfold WindowExpression.frame_bounds. split.
  - unfold WindowExpression.from_switch. by intros [-> | ->].
  - intros H1 H2 H3 He.
    destruct (from_switch_returns entry "ROWS" H1 H2 H3)
      as (from & units & -> & _).
    simpl. unfold WindowExpression.to_switch. by rewrite He.
Qed.

End failure.

Lemma exception_names_the_switch_witness :
  WindowExpression.start invalid_both = UNBOUNDED_FOLLOWING ∧
  WindowExpression.end_ invalid_both = INVALID ∧
  WindowExpression.ToString invalid_both "" "func" =
    inl (InternalException "Unrecognized FROM in WindowExpression") ∧
  WindowExpression.ToString (with_start invalid_both CURRENT_ROW_ROWS)
    "" "func" =
    inl (InternalException "Unrecognized TO in WindowExpression").
Proof.
  split; [done|]. split; [done|]. split.
  - apply (exception_names_the_switch invalid_both "" "func"). by right.
  - by apply (exception_names_the_switch
                (with_start invalid_both CURRENT_ROW_ROWS) "" "func").
Defined.

(** ** Lists of nodes *)

Section lists.
Context {BASE ORDER_NODE : Type}.
Context {base_ToString : Renderable BASE}.
Context {order_ToString : Renderable ORDER_NODE}.

Implicit Types (entry : WindowExpression.t BASE ORDER_NODE).

Lemma concat_cons {A} (f : A → string) (separator : string) (x : A) (l : list A) :
  String.concat separator (f <$> x :: l) =
  f x +:+ foldr (λ y acc, separator +:+ f y +:+ acc) "" l.
Proof.
  revert x. induction l as [|y l IH]; intros x.
  - by rewrite append_nil_r.
  - rewrite fmap_cons.
    change (f x +:+ separator +:+ String.concat separator (f <$> y :: l) =
            f x +:+ separator +:+ f y +:+
            foldr (λ y acc, separator +:+ f y +:+ acc) "" l).
    by rewrite IH.
Qed.

Lemma Join_rest_stateless {A} (f : A → string) (separator : string)
    (l : list A) (result : string) :
  fst (StringUtil.Join_rest l separator (stateless f) () result) =
  result +:+ foldr (λ y acc, separator +:+ f y +:+ acc) "" l.
Proof.
  revert result. induction l as [|x l IH]; intros result.
  - simpl. by rewrite append_nil_r.
  - simpl. rewrite IH. by rewrite !append_assoc.
Qed.

(** A closure that captures nothing joins like [String.concat]. *)
Lemma Join_stateless {A} (f : A → string) (separator : string) (l : list A) :
  fst (StringUtil.Join l (length l) separator (stateless f) ()) =
  String.concat separator (f <$> l).
Proof.
  unfold StringUtil.Join. rewrite firstn_all. destruct l as [|x l]; [done|].
  rewrite concat_cons. simpl. by rewrite Join_rest_stateless.
Qed.

(** X3.  With DISTINCT unset no child gets a prefix, with no children
    nothing is printed for them and the DISTINCT flag is dropped, and
    otherwise "DISTINCT " stands once in front of the list: the text of the
    children is that prefix, if any, and then the children in list order with
    ", " between them (as long as the [int] counter can count them). *)
Theorem children_text_cases entry :
  Z.of_nat (length (WindowExpression.children entry)) < INT_MAX →
  WindowExpression.children_text entry =
  (if WindowExpression.distinct entry &&
      bool_decide (WindowExpression.children entry ≠ [])
   then "DISTINCT " else "") +:+
  String.concat ", " (ToString <$> WindowExpression.children entry).
Proof.
  intros Hl. destruct (WindowExpression.children entry) as [|child rest] eqn:Hc.
  - unfold WindowExpression.children_text. rewrite Hc. simpl.
    by destruct (WindowExpression.distinct entry).
  - rewrite concat_cons. rewrite bool_decide_eq_true_2 by done.
    destruct (WindowExpression.distinct entry) eqn:Hd; simpl.
    + rewrite (children_text_distinct entry child rest Hd Hc); [done|].
      rewrite Hc. lia.
    + unfold WindowExpression.children_text, StringUtil.Join.
      rewrite Hc, Hd. simpl in *. rewrite firstn_all.
      rewrite int_incr_in_range by (unfold INT_MAX in *; lia).
      by rewrite Join_rest_later by lia.
Qed.

(** X4.  PARTITION BY and ORDER BY print their items in list order with
    ", " between them; a single space stands between the two clauses and in
    front of the frame, and only where something precedes it. *)
Theorem clauses_in_list_order entry (schema function_name : string)
    (from to units : string) :
  WindowExpression.frame_bounds entry = inr (from, to, units) →
  WindowExpression.ToString entry schema function_name =
    inr (WindowExpression.call_text entry schema function_name +:+
         ") OVER (" +:+
         (if decide (WindowExpression.partitions entry = []) then ""
          else "PARTITION BY " +:+
               String.concat ", "
                 (ToString <$> WindowExpression.partitions entry)) +:+
         (if decide (WindowExpression.orders entry = []) then ""
          else (if decide (WindowExpression.partitions entry = []) then ""
                else " ") +:+
               "ORDER BY " +:+
               String.concat ", " (ToString <$> WindowExpression.orders entry)) +:+
         WindowExpression.frame_text
           (if decide (WindowExpression.partitions entry = [] ∧
                       WindowExpression.orders entry = [])
            then "" else " ")
           units from to +:+
         WindowExpression.exclude_text entry +:+ ")").
Proof.
  intros Hb. rewrite ToString_frame, Hb. simpl.
  unfold WindowExpression.over_text, WindowExpression.clauses_text,
    WindowExpression.frame_sep, WindowExpression.partitions_text,
    WindowExpression.orders_text.
  rewrite !Join_stateless.
  destruct (WindowExpression.partitions entry) as [|p ps],
    (WindowExpression.orders entry) as [|o os];
    repeat case_decide; try done; try tauto;
    simpl; unfold ret; f_equal; by normalize_append.
Qed.

End lists.

Lemma children_text_cases_witness :
  Z.of_nat (length (WindowExpression.children full_call)) < INT_MAX ∧
  WindowExpression.children_text full_call = "x, f(y)".
Proof.
  assert (Z.of_nat (length (WindowExpression.children full_call)) < INT_MAX)
    as Hl.
  { by vm_compute. }
  split; [done|]. by rewrite (children_text_cases full_call Hl).
Defined.

Lemma clauses_in_list_order_witness :
  WindowExpression.frame_bounds full_call =
    inr ("1 PRECEDING", "(2) FOLLOWING", "RANGE") ∧
  WindowExpression.ToString full_call "main" "lag" =
    inr "main.lag(x, f(y), 1, 0 ORDER BY o IGNORE NULLS) FILTER (WHERE (p)) OVER (PARTITION BY p, q ORDER BY s DESC, t RANGE BETWEEN 1 PRECEDING AND (2) FOLLOWING EXCLUDE GROUP)".
Proof.
  assert (WindowExpression.frame_bounds full_call =
            inr ("1 PRECEDING", "(2) FOLLOWING", "RANGE")) as Hb.
  { done. }
  split; [done|].
  by rewrite (clauses_in_list_order full_call "main" "lag" _ _ _ Hb).
Defined.

(** ** What the text does not tell *)

Section collisions.
Context {BASE ORDER_NODE : Type}.
Context {base_ToString : Renderable BASE}.
Context {order_ToString : Renderable ORDER_NODE}.

Implicit Types (entry : WindowExpression.t BASE ORDER_NODE).

Lemma empty_append (s1 s2 : string) : empty (s1 +:+ s2) = empty s1 && empty s2.
Proof. by destruct s1. Qed.

Lemma frame_bounds_with_start entry (b : WindowBoundary) :
  WindowExpression.end_ entry = CURRENT_ROW_ROWS ∨
  WindowExpression.is_expr (WindowExpression.end_ entry) →
  strip_units b = strip_units (WindowExpression.start entry) →
  WindowExpression.frame_bounds (with_start entry b) =
  WindowExpression.frame_bounds entry.
Proof.
  intros He Hb.
  unfold WindowExpression.frame_bounds, WindowExpression.from_switch,
    WindowExpression.to_switch, WindowExpression.exclude_fill.
  simpl.
  destruct (WindowExpression.start entry), b; try done;
    destruct (WindowExpression.end_ entry); try (by destruct He);
    destruct (WindowExpression.start_expr entry),
      (WindowExpression.end_expr entry); try done.
Qed.

(** X5.  When the end is CURRENT_ROW_ROWS or one of the four [EXPR_*]
    boundaries, the units of the start leave no trace: an entry and the same
    entry with the start of the other units (ROWS for RANGE or RANGE for
    ROWS) have the same text, or the same error. *)
Theorem start_units_leave_no_trace entry (schema function_name : string)
    (b : WindowBoundary) :
  WindowExpression.end_ entry = CURRENT_ROW_ROWS ∨
  WindowExpression.is_expr (WindowExpression.end_ entry) →
  strip_units b = strip_units (WindowExpression.start entry) →
  WindowExpression.ToString (with_start entry b) schema function_name =
  WindowExpression.ToString entry schema function_name.
Proof.
  intros He Hb.
  by rewrite !ToString_frame, (frame_bounds_with_start entry b He Hb).
Qed.

(** X6.  A lone default expression is printed where the offset would be:
    an entry with only [default_expr] set and the entry with the same
    expression as its [offset_expr] have the same text. *)
Theorem lone_default_reads_as_offset entry (schema function_name : string)
    (e : BASE) :
  WindowExpression.ToString (with_lead_lag entry None (Some e))
    schema function_name =
  WindowExpression.ToString (with_lead_lag entry (Some e) None)
    schema function_name.
Proof.
  rewrite !ToString_frame.
  change (WindowExpression.frame_bounds (with_lead_lag entry None (Some e)))
    with (WindowExpression.frame_bounds entry).
  change (WindowExpression.frame_bounds (with_lead_lag entry (Some e) None))
    with (WindowExpression.frame_bounds entry).
  destruct (WindowExpression.frame_bounds entry) as [|[[from to] units]];
    [done|].
  simpl.
  unfold WindowExpression.call_text, WindowExpression.args_text,
    WindowExpression.lead_lag_text. simpl.
  by rewrite append_nil_r.
Qed.

(** X7.  The units of a valid entry are the word ROWS or the word RANGE,
    and whenever a frame that ends at CURRENT_ROW_RANGE is printed its units
    are RANGE, whatever the start. *)
Theorem units_are_rows_or_range entry :
  WindowExpression.valid_boundaries entry →
  ∃ from to units,
    WindowExpression.frame_bounds entry = inr (from, to, units) ∧
    (units = "ROWS" ∨ units = "RANGE") ∧
    (WindowExpression.end_ entry = CURRENT_ROW_RANGE → from ≠ "" →
     units = "RANGE").
Proof.
  intros (H1 & H2 & H3 & H4 & H5).
  unfold WindowExpression.frame_bounds, WindowExpression.from_switch,
    WindowExpression.to_switch, WindowExpression.exclude_fill.
  destruct (WindowExpression.start entry); try done;
    destruct (WindowExpression.end_ entry); try done;
    simpl in H4, H5;
    try (destruct H4 as [se ->]; [done|]);
    try (destruct H5 as [ee ->]; [done|]);
    destruct (WindowExpression.exclude_clause entry); simpl;
    rewrite ?empty_append, ?andb_false_r; simpl;
    eexists _, _, _; (split; [reflexivity|]);
    (split; [by (left + right)|by intros ? ?]).
Qed.

End collisions.

Lemma start_units_leave_no_trace_witness :
  WindowExpression.end_ mixed_units = CURRENT_ROW_ROWS ∧
  strip_units EXPR_PRECEDING_ROWS =
    strip_units (WindowExpression.start mixed_units) ∧
  WindowExpression.ToString (with_start mixed_units EXPR_PRECEDING_ROWS)
    "" "func" =
    inr "func(x) OVER (PARTITION BY p ORDER BY s DESC ROWS BETWEEN 1 PRECEDING AND CURRENT ROW)".
Proof.
  split; [done|]. split; [done|].
  by rewrite (start_units_leave_no_trace mixed_units "" "func"
                EXPR_PRECEDING_ROWS (or_introl eq_refl) eq_refl).
Defined.

Lemma units_are_rows_or_range_witness :
  WindowExpression.valid_boundaries full_call ∧
  ∃ from to units,
    WindowExpression.frame_bounds full_call = inr (from, to, units) ∧
    (units = "ROWS" ∨ units = "RANGE").
Proof.
  assert (WindowExpression.valid_boundaries full_call) as Hv.
  { by repeat split. }
  split; [done|].
  destruct (units_are_rows_or_range full_call Hv)
    as (from & to & units & Hb & Hu & _).
  by exists from, to, units.
Defined.

(** ** Parentheses *)

Lemma depth_app (d : nat) (s1 s2 : string) :
  depth d (s1 +:+ s2) = depth d s1 ≫= λ d', depth d' s2.
Proof.
  revert d. induction s1 as [|c s1 IH]; intros d; [done|].
  change (depth d (String c (s1 +:+ s2)) =
          depth d (String c s1) ≫= λ d', depth d' s2).
  simpl. destruct (Ascii.eqb c "("); [apply IH|].
  destruct (Ascii.eqb c ")"); [|apply IH].
  destruct d; [done|apply IH].
Qed.

Lemma depth_deeper (d d' k : nat) (s : string) :
  depth d s = Some d' → depth (d + k) s = Some (d' + k)%nat.
Proof.
  revert d. induction s as [|c s IH]; intros d; simpl.
  - by intros [= ->].
  - destruct (Ascii.eqb c "("); [apply (IH (S d))|].
    destruct (Ascii.eqb c ")"); [|apply IH].
    destruct d; [done|apply IH].
Qed.

Lemma balanced_shifts (s : string) : balanced s ↔ shifts s 0 0.
Proof.
  split.
  - intros H d. exact (depth_deeper 0 0 d s H).
  - intros H. exact (H 0%nat).
Qed.

Lemma shifts_app (s1 s2 : string) (a b c : nat) :
  shifts s1 a b → shifts s2 b c → shifts (s1 +:+ s2) a c.
Proof. intros H1 H2 d. by rewrite depth_app, H1; simpl. Qed.

Lemma shifts_under (s : string) (k : nat) : shifts s 0 0 → shifts s k k.
Proof.
  intros H d. specialize (H (k + d)%nat). by simpl in H.
Qed.

Lemma shifts_nil (k : nat) : shifts "" k k.
Proof. by intros d. Qed.

(** Texts of matching parentheses, one after the other. *)
Lemma level_app (s1 s2 : string) :
  shifts s1 0 0 → shifts s2 0 0 → shifts (s1 +:+ s2) 0 0.
Proof. apply shifts_app. Qed.

Local Ltac level :=
  repeat first
    [ assumption
    | apply level_app
    | by intros ? ].

Section parentheses.
Context {BASE ORDER_NODE : Type}.
Context {base_ToString : Renderable BASE}.
Context {order_ToString : Renderable ORDER_NODE}.

Implicit Types (entry : WindowExpression.t BASE ORDER_NODE).

Lemma Join_rest_level {A S} (l : list A) (separator : string)
    (f : S → A → string * S) (st : S) (result : string) :
  shifts separator 0 0 → shifts result 0 0 →
  (∀ x st, x ∈ l → shifts (fst (f st x)) 0 0) →
  shifts (fst (StringUtil.Join_rest l separator f st result)) 0 0.
Proof.
  intros Hsep. revert st result.
  induction l as [|x l IH]; intros st result Hr Hf; [done|].
  simpl. pose proof (Hf x st (list_elem_of_here _ _)) as Hx.
  destruct (f st x) as [s st']. apply IH.
  - simpl in Hx. level.
  - intros y st'' Hy. apply Hf. by right.
Qed.

Lemma Join_level {A S} (l : list A) (separator : string)
    (f : S → A → string * S) (st : S) :
  shifts separator 0 0 →
  (∀ x st, x ∈ l → shifts (fst (f st x)) 0 0) →
  shifts (fst (StringUtil.Join l (length l) separator f st)) 0 0.
Proof.
  intros Hsep Hf. unfold StringUtil.Join. rewrite firstn_all.
  destruct l as [|x l]; [by intros ?|].
  pose proof (Hf x st (list_elem_of_here _ _)) as Hx.
  destruct (f st x) as [s st']. apply Join_rest_level; [done|done|].
  intros y st'' Hy. apply Hf. by right.
Qed.

Lemma children_text_level entry :
  (∀ e, e ∈ WindowExpression.children entry → shifts (ToString e) 0 0) →
  shifts (WindowExpression.children_text entry) 0 0.
Proof.
  intros H. unfold WindowExpression.children_text. case_decide; [|level].
  apply Join_level; [level|]. intros x st Hx.
  pose proof (H x Hx). unfold WindowExpression.distinct_child. simpl.
  case_decide; level.
Qed.

Lemma stateless_Join_level {A} (f : A → string) (l : list A) :
  (∀ x, x ∈ l → shifts (f x) 0 0) →
  shifts (fst (StringUtil.Join l (length l) ", " (stateless f) ())) 0 0.
Proof.
  intros H. apply Join_level; [level|]. intros x st Hx. by apply H.
Qed.

Lemma frame_bounds_level entry (from to units : string) :
  WindowExpression.frame_bounds entry = inr (from, to, units) →
  (∀ e, WindowExpression.start_expr entry = Some e → shifts (ToString e) 0 0) →
  (∀ e, WindowExpression.end_expr entry = Some e → shifts (ToString e) 0 0) →
  shifts from 0 0 ∧ shifts to 0 0 ∧ shifts units 0 0.
Proof.
  unfold WindowExpression.frame_bounds, WindowExpression.from_switch,
    WindowExpression.to_switch, WindowExpression.exclude_fill.
  intros Hb Hs He.
  destruct (WindowExpression.start_expr entry) as [se|];
    [pose proof (Hs se eq_refl)|]; clear Hs;
    (destruct (WindowExpression.end_expr entry) as [ee|];
     [pose proof (He ee eq_refl)|]); clear He;
    destruct (WindowExpression.start entry); try done;
    destruct (WindowExpression.end_ entry); try done;
    destruct (WindowExpression.exclude_clause entry); simpl in Hb;
    rewrite ?empty_append, ?andb_false_r in Hb; simpl in Hb;
    injection Hb as <- <- <-; (split; [|split]); level.
Qed.

Lemma frame_text_level (sep units from to : string) :
  shifts sep 0 0 → shifts units 0 0 → shifts from 0 0 → shifts to 0 0 →
  shifts (WindowExpression.frame_text sep units from to) 0 0.
Proof.
  intros. unfold WindowExpression.frame_text.
  destruct (empty from), (empty to); simpl; level.
Qed.

(** X8.  [ToString] adds parentheses in matching pairs only: with valid
    boundaries, when the parentheses of the schema, of the function name
    and of the text of every node match, so do those of the whole text. *)
Theorem parentheses_match entry (schema function_name : string) :
  WindowExpression.valid_boundaries entry →
  balanced schema → balanced function_name →
  (∀ e, e ∈ WindowExpression.owned entry → balanced (ToString e)) →
  (∀ o, o ∈ WindowExpression.orders entry ++ WindowExpression.arg_orders entry →
        balanced (ToString o)) →
  ∃ text,
    WindowExpression.ToString entry schema function_name = inr text ∧
    balanced text.
Proof.
  intros Hv Hschema%balanced_shifts Hname%balanced_shifts Hnodes Horders.
  assert (∀ e, e ∈ WindowExpression.owned entry → shifts (ToString e) 0 0)
    as Hn.
  { intros e He. by apply balanced_shifts, Hnodes. }
  assert (∀ o, o ∈ WindowExpression.orders entry ++
                   WindowExpression.arg_orders entry →
               shifts (ToString o) 0 0) as Ho.
  { intros o Ho. by apply balanced_shifts, Horders. }
  clear Hnodes Horders. unfold WindowExpression.owned in Hn.
  destruct (frame_bounds_valid entry Hv) as (f & t & u & Hb & _).
  destruct (frame_bounds_level entry f t u Hb) as (Hf & Ht & Hu).
  { intros e He. apply Hn. rewrite He, !elem_of_app. simpl.
    rewrite list_elem_of_singleton. tauto. }
  { intros e He. apply Hn. rewrite He, !elem_of_app. simpl.
    rewrite list_elem_of_singleton. tauto. }
  rewrite ToString_frame, Hb. simpl. eexists. split; [done|].
  apply balanced_shifts.
  assert (shifts (WindowExpression.args_text entry schema function_name) 0 1)
    as Hargs.
  { unfold WindowExpression.args_text. apply (shifts_app _ _ 0 0 1).
    { unfold WindowExpression.qualified_name. destruct (empty schema); level. }
    apply (shifts_app _ _ 0 1 1); [by intros ?|]. apply shifts_under.
    apply level_app.
    { apply children_text_level. intros e He. apply Hn.
      rewrite !elem_of_app. tauto. }
    apply level_app.
    { unfold WindowExpression.lead_lag_text.
      destruct (WindowExpression.offset_expr entry) as [e1|],
        (WindowExpression.default_expr entry) as [e2|]; simpl in Hn;
        try (assert (shifts (ToString e1) 0 0)
               by (apply Hn; rewrite !elem_of_app, ?elem_of_cons; tauto));
        try (assert (shifts (ToString e2) 0 0)
               by (apply Hn; rewrite !elem_of_app, ?elem_of_cons; tauto));
        level. }
    apply level_app.
    { unfold WindowExpression.arg_orders_text. case_decide; [|level].
      apply level_app; [level|]. apply stateless_Join_level.
      intros o Hin. apply Ho. rewrite elem_of_app. tauto. }
    unfold WindowExpression.ignore_nulls_text.
    destruct (WindowExpression.ignore_nulls entry); level. }
  assert (shifts (WindowExpression.filter_text entry) 1 1) as Hfilter.
  { unfold WindowExpression.filter_text.
    destruct (WindowExpression.filter_expr entry) as [p|]; [|by intros ?].
    apply (shifts_app _ _ 1 1 1); [by intros ?|]. apply shifts_under.
    apply Hn. rewrite !elem_of_app. simpl. rewrite list_elem_of_singleton.
    tauto. }
  assert (shifts (WindowExpression.over_text entry f t u) 0 0) as Hover.
  { unfold WindowExpression.over_text, WindowExpression.clauses_text,
      WindowExpression.frame_sep, WindowExpression.partitions_text,
      WindowExpression.orders_text.
    assert (shifts
      (fst (StringUtil.Join (WindowExpression.partitions entry)
              (length (WindowExpression.partitions entry)) ", "
              (stateless ToString) ())) 0 0) as Hp.
    { apply stateless_Join_level. intros e He. apply Hn.
      rewrite !elem_of_app. tauto. }
    assert (shifts
      (fst (StringUtil.Join (WindowExpression.orders entry)
              (length (WindowExpression.orders entry)) ", "
              (stateless ToString) ())) 0 0) as Hos.
    { apply stateless_Join_level. intros o Hin. apply Ho.
      rewrite elem_of_app. tauto. }
    assert (shifts (WindowExpression.exclude_text entry) 0 0) as Hex.
    { unfold WindowExpression.exclude_text.
      by destruct (WindowExpression.exclude_clause entry); intros ?. }
    repeat case_decide; cbn [fst snd];
      repeat first [assumption | apply frame_text_level | apply level_app
                   | by intros ?]. }
  unfold WindowExpression.call_text.
  apply (shifts_app _ _ 0 1 0).
  { by apply (shifts_app _ _ 0 1 1). }
  apply (shifts_app _ _ 1 1 0); [by intros ?|].
  apply (shifts_app _ _ 1 1 0); [by apply shifts_under|by intros ?].
Qed.

End parentheses.

Lemma parentheses_match_witness :
  WindowExpression.valid_boundaries full_call ∧
  balanced "main" ∧ balanced "lag" ∧
  ∃ text,
    WindowExpression.ToString full_call "main" "lag" = inr text ∧
    balanced text.
Proof.
  assert (WindowExpression.valid_boundaries full_call) as Hv.
  { by repeat split. }
  assert (∀ e : string, e ∈ WindowExpression.owned full_call →
                        balanced (ToString e)) as Hn.
  { intros e He. cbn in He. rewrite !elem_of_cons in He.
    destruct He as [->|[->|[->|[->|[->|[->|[->|[->|[->|He]]]]]]]]];
      [done..|]. by apply elem_of_nil in He. }
  assert (∀ o : string,
            o ∈ WindowExpression.orders full_call ++
                WindowExpression.arg_orders full_call →
            balanced (ToString o)) as Ho.
  { intros o Hin. cbn in Hin. rewrite !elem_of_cons in Hin.
    destruct Hin as [->|[->|[->|Hin]]]; [done..|].
    by apply elem_of_nil in Hin. }
  split; [done|]. split; [done|]. split; [done|].
  exact (parentheses_match full_call "main" "lag" Hv eq_refl eq_refl Hn Ho).
Defined.

(** ** No children *)

Section no_children.
Context {BASE ORDER_NODE : Type}.
Context {base_ToString : Renderable BASE}.
Context {order_ToString : Renderable ORDER_NODE}.

Implicit Types (entry : WindowExpression.t BASE ORDER_NODE).

(** X9.  The Lead/Lag arguments are printed behind ", " whether or not a
    child precedes them: with no children and an offset expression the
    argument list opens with a comma, and DISTINCT is not printed even when
    it is set. *)
Theorem offset_without_children entry (schema function_name : string)
    (offset : BASE) :
  WindowExpression.valid_boundaries entry →
  WindowExpression.children entry = [] →
  WindowExpression.offset_expr entry = Some offset →
  ∃ from to units,
    WindowExpression.frame_bounds entry = inr (from, to, units) ∧
    WindowExpression.ToString entry schema function_name =
      inr (WindowExpression.qualified_name schema function_name +:+
           "(, " +:+ ToString offset +:+
           match WindowExpression.default_expr entry with
           | Some e => ", " +:+ ToString e
           | None => ""
           end +:+
           WindowExpression.arg_orders_text entry +:+
           WindowExpression.ignore_nulls_text entry +:+
           WindowExpression.filter_text entry +:+
           ") OVER (" +:+ WindowExpression.over_text entry from to units +:+
           ")").
Proof.
  intros Hv Hc Ho.
  destruct (frame_bounds_valid entry Hv) as (f & t & u & Hb & _).
  exists f, t, u. split; [done|].
  rewrite ToString_frame, Hb. simpl.
  unfold WindowExpression.call_text, WindowExpression.args_text,
    WindowExpression.children_text, WindowExpression.lead_lag_text.
  rewrite Hc, Ho. simpl. unfold ret. f_equal. by normalize_append.
Qed.

End no_children.

Lemma offset_without_children_witness :
  WindowExpression.valid_boundaries no_child ∧
  WindowExpression.children no_child = [] ∧
  WindowExpression.offset_expr no_child = Some "1" ∧
  WindowExpression.ToString no_child "" "lag" = inr "lag(, 1, 0) OVER ()".
Proof.
  assert (WindowExpression.valid_boundaries no_child) as Hv.
  { by repeat split. }
  split; [done|]. split; [done|]. split; [done|].
  destruct (offset_without_children no_child "" "lag" "1" Hv eq_refl eq_refl)
    as (from & to & units & Hb & Hr).
  vm_compute in Hb. injection Hb as <- <- <-. by rewrite Hr.
Defined.
